(** * multilistener: a TCP listener over several addresses

    A shallow embedding of [listener.go].  The sequential operations
    ([Listen], [Close], [Addr], [Addrs]) are functions on the state of a
    [Listener]; the goroutines started by [acceptLoop] and the callers of
    [Accept] and [Close] are a labelled transition system on the same
    state, one label per atomic action of the source. *)

From stdpp Require Import base option list gmap strings.
From Stdlib Require Import Lia.

(** ** Errors *)

(** The error values the package handles.  [ErrClosed] is [net.ErrClosed];
    [OpError] is [*net.OpError], whose [Unwrap] yields [Err]; [joinError]
    is the result of [errors.Join]; [Errno] is [syscall.Errno]. *)
#[warnings="-register-all"]
Inductive error : Type :=
  | errorString (s : string)
  | ErrClosed
  | Errno (n : nat)
  | OpError (op : string) (Err : error)
  | joinError (errs : list error).

(** Go's [==] on two error values.  The comparison is structural: two
    errors allocated with the same contents are identified. *)
Fixpoint error_eqb (a b : error) : bool :=
  match a, b with
  | errorString s, errorString s' => bool_decide (s = s')
  | ErrClosed, ErrClosed => true
  | Errno n, Errno m => bool_decide (n = m)
  | OpError o e, OpError o' e' => bool_decide (o = o') && error_eqb e e'
  | joinError l, joinError l' =>
      (fix go (l l' : list error) : bool :=
         match l, l' with
         | [], [] => true
         | x :: l, y :: l' => error_eqb x y && go l l'
         | _, _ => false
         end) l l'
  | _, _ => false
  end.

(** [errors.Is(e, target)]: [e] equals [target], or something in the tree
    [e] unwraps to does (depth first). *)
Fixpoint errors_Is (e target : error) : bool :=
  error_eqb e target ||
  match e with
  | OpError _ inner => errors_Is inner target
  | joinError l =>
      (fix go (l : list error) : bool :=
         match l with
         | [] => false
         | x :: l => errors_Is x target || go l
         end) l
  | _ => false
  end.

(** [errors.Join(errs...)]: nil values are discarded; nil when nothing is
    left. *)
Definition errors_Join (errs : list (option error)) : option error :=
  match omap id errs with
  | [] => None
  | l => Some (joinError l)
  end.

(** ** Sub-listeners, connections *)

(** A connection ([net.Conn]) is known by its identity. *)
Definition Conn := nat.

(** A bound sub-listener ([net.Listener]): its identity, the address
    [Addr()] reports, and what its [Close()] returns. *)
Record Binder : Type := mkBinder {
  ln_id : nat;
  ln_Addr : string;
  ln_Close : option error;
}.

(** [connErrPair], the value sent on [l.conns]. *)
Record connErrPair : Type := mkPair {
  conn : option Conn;
  err : option error;
}.

(** What a call of [ln.Accept()] returns: a connection, or an error. *)
Inductive AcceptResult : Type :=
  | AcceptConn (c : Conn)
  | AcceptFail (e : error).

Definition pair_of (r : AcceptResult) : connErrPair :=
  match r with
  | AcceptConn c => {| conn := Some c; err := None |}
  | AcceptFail e => {| conn := None; err := Some e |}
  end.

(** [lc.Listen(ctx, "tcp", addr)] for the address at position [pos] of the
    input: an error, or a bound sub-listener. *)
Definition ListenConfig := nat → string → error + Binder.

(** ** State of a [Listener] and of the goroutines that use it *)

(** Where the goroutine of one sub-listener is in the body of
    [acceptLoop]. *)
Inductive TaskPC : Type :=
  | TAccept                       (* line 64, inside [ln.Accept()] *)
  | TSelect (p : connErrPair)     (* line 65, entering the select *)
  | TParked (p : connErrPair)     (* line 65, blocked in the select *)
  | TSent (p : connErrPair)       (* line 73, the send case was taken *)
  | TClosing (p : connErrPair)    (* line 68, the closeCh case was taken *)
  | TDone.                        (* returned *)

(** Where a caller that won the compare-and-swap is in [Close]. *)
Inductive ClosePC : Type :=
  | CAt99                                   (* before [close(l.closeCh)] *)
  | CLoop (j : nat) (e : option error).     (* lines 101-105, at index j *)

(** What can be observed of a run, in the order it happened. *)
Inductive Event : Type :=
  | EvBind (addr : string) (ok : bool)
  | EvSpawn (i : nat)
  | EvBinderAccept (i : nat) (r : AcceptResult)
  | EvDeliver (i k : nat) (p : connErrPair)
  | EvAcceptClosed (k : nat)
  | EvConnClose (i : nat) (c : Conn)
  | EvShutdown (t : nat)
  | EvBinderClose (t j : nat) (ln : Binder)
  | EvCloseClosed (t : nat)                 (* line 96 returns *)
  | EvCloseRet (t : nat) (e : option error). (* line 106 returns *)

Record State : Type := mkState {
  listeners : list Binder;      (* l.listeners *)
  closeCh : bool;               (* true once l.closeCh is closed *)
  closed : bool;                (* l.closed *)
  tasks : list TaskPC;          (* the goroutine of each sub-listener *)
  recvq : list nat;             (* callers blocked in Accept *)
  closers : gmap nat ClosePC;   (* callers inside Close, after the CAS *)
  trace : list Event;           (* history *)
}.

Definition set_listeners (s : State) (x : list Binder) : State :=
  mkState x (closeCh s) (closed s) (tasks s) (recvq s) (closers s) (trace s).
Definition set_closeCh (s : State) (x : bool) : State :=
  mkState (listeners s) x (closed s) (tasks s) (recvq s) (closers s) (trace s).
Definition set_closed (s : State) (x : bool) : State :=
  mkState (listeners s) (closeCh s) x (tasks s) (recvq s) (closers s) (trace s).
Definition set_tasks (s : State) (x : list TaskPC) : State :=
  mkState (listeners s) (closeCh s) (closed s) x (recvq s) (closers s) (trace s).
Definition set_recvq (s : State) (x : list nat) : State :=
  mkState (listeners s) (closeCh s) (closed s) (tasks s) x (closers s) (trace s).
Definition set_closers (s : State) (x : gmap nat ClosePC) : State :=
  mkState (listeners s) (closeCh s) (closed s) (tasks s) (recvq s) x (trace s).
Definition emit (s : State) (evs : list Event) : State :=
  mkState (listeners s) (closeCh s) (closed s) (tasks s) (recvq s) (closers s)
    (trace s ++ evs).

(** ** The atomic actions *)

(** The goroutines share [l.conns], an unbuffered channel, [l.closeCh]
    and [l.closed].  Both selects of the source have the same two cases, a
    communication on [l.conns] and [<-l.closeCh], and resolve as the Go
    runtime resolves them.  A goroutine that enters a select takes one of
    the cases that are ready, whichever: the communication is ready when a
    goroutine is blocked in a select on the other side of [l.conns], the
    receive from [l.closeCh] when the channel is closed.  When no case is
    ready the goroutine blocks on both channels.  A blocked goroutine
    resumes with the case that another goroutine completes for it: the
    hand-off, by a goroutine entering the select on the other side, or the
    receive from [l.closeCh], by [close(l.closeCh)], which resumes every
    goroutine blocked on the channel in one action.

    A call of [Accept] is recorded when its select is resolved, which fixes
    what it returns; a goroutine of [acceptLoop] that was resumed still has
    its own code to run ([TSent], [TClosing]). *)

(** How a select resolves when a goroutine enters it. *)
Inductive SelChoice : Type :=
  | SelComm (peer : nat)
  | SelClosed
  | SelPark.

(** The atomic actions, with the lines of [listener.go] they stand for.
    [i] is the index of a sub-listener and of its goroutine, [k] a caller
    of [Accept], [t] a caller of [Close]. *)
Inductive Label : Type :=
  | LBinderAccept (i : nat) (r : AcceptResult)   (* line 64 returns *)
  | LTaskSelect (i : nat) (ch : SelChoice)        (* lines 65-67 *)
  | LTaskAfterSend (i : nat)                      (* lines 73-76 *)
  | LTaskCloseConn (i : nat)                      (* lines 68-71 *)
  | LAccept (k : nat) (ch : SelChoice)            (* lines 85-90 *)
  | LCloseCAS (t : nat)                           (* lines 95-97 *)
  | LCloseCh (t : nat)                            (* line 99 *)
  | LCloseBinder (t : nat)                        (* lines 101-105 *)
  | LCloseRet (t : nat).                          (* line 106 *)

(** Closing [l.closeCh] makes the [<-l.closeCh] case of every goroutine
    blocked in a select proceed. *)
Definition wake (pc : TaskPC) : TaskPC :=
  match pc with
  | TParked p => TClosing p
  | _ => pc
  end.

Definition is_parked (pc : TaskPC) : bool :=
  match pc with
  | TParked _ => true
  | _ => false
  end.

(** One iteration of the loop of [Close]:
    [if cerr := ln.Close(); cerr != nil && err == nil { err = cerr }]. *)
Definition close_iter (ln : Binder) (e : option error) : option error :=
  match ln_Close ln, e with
  | Some cerr, None => Some cerr
  | _, _ => e
  end.

Definition set_task (s : State) (i : nat) (pc : TaskPC) : State :=
  set_tasks s (<[i := pc]> (tasks s)).

(** [step s l]: the state after the action [l], [None] when [l] cannot
    happen in [s]. *)
Definition step (s : State) (l : Label) : option State :=
  match l with
  | LBinderAccept i r =>
      match tasks s !! i with
      | Some TAccept =>
          Some (emit (set_task s i (TSelect (pair_of r))) [EvBinderAccept i r])
      | _ => None
      end
  | LTaskSelect i ch =>
      match tasks s !! i with
      | Some (TSelect p) =>
          match ch with
          | SelComm k =>
              if bool_decide (k ∈ recvq s)
              then Some (emit (set_recvq (set_task s i (TSent p))
                                 (filter (λ x, x ≠ k) (recvq s)))
                           [EvDeliver i k p])
              else None
          | SelClosed =>
              if closeCh s then Some (set_task s i (TClosing p)) else None
          | SelPark =>
              if closeCh s then None
              else match recvq s with
                   | [] => Some (set_task s i (TParked p))
                   | _ :: _ => None
                   end
          end
      | _ => None
      end
  | LTaskAfterSend i =>
      match tasks s !! i with
      | Some (TSent p) =>
          match err p with
          | Some _ => Some (set_task s i TDone)
          | None => Some (set_task s i TAccept)
          end
      | _ => None
      end
  | LTaskCloseConn i =>
      match tasks s !! i with
      | Some (TClosing p) =>
          match conn p with
          | Some c => Some (emit (set_task s i TDone) [EvConnClose i c])
          | None => Some (set_task s i TDone)
          end
      | _ => None
      end
  | LAccept k ch =>
      if bool_decide (k ∈ recvq s) then None
      else match ch with
           | SelComm i =>
               match tasks s !! i with
               | Some (TParked p) =>
                   Some (emit (set_task s i (TSent p)) [EvDeliver i k p])
               | _ => None
               end
           | SelClosed =>
               if closeCh s then Some (emit s [EvAcceptClosed k]) else None
           | SelPark =>
               if closeCh s || existsb is_parked (tasks s) then None
               else Some (set_recvq s (recvq s ++ [k]))
           end
  | LCloseCAS t =>
      match closers s !! t with
      | Some _ => None
      | None =>
          if closed s then Some (emit s [EvCloseClosed t])
          else Some (set_closers (set_closed s true) (<[t := CAt99]> (closers s)))
      end
  | LCloseCh t =>
      match closers s !! t with
      | Some CAt99 =>
          if closeCh s then None (* close of a closed channel panics *)
          else
            Some (emit
                    (set_closers
                       (set_recvq (set_tasks (set_closeCh s true) (wake <$> tasks s)) [])
                       (<[t := CLoop 0 None]> (closers s)))
                    (EvShutdown t :: (EvAcceptClosed <$> recvq s)))
      | _ => None
      end
  | LCloseBinder t =>
      match closers s !! t with
      | Some (CLoop j e) =>
          match listeners s !! j with
          | Some ln =>
              Some (emit (set_closers s (<[t := CLoop (S j) (close_iter ln e)]> (closers s)))
                      [EvBinderClose t j ln])
          | None => None
          end
      | _ => None
      end
  | LCloseRet t =>
      match closers s !! t with
      | Some (CLoop j e) =>
          match listeners s !! j with
          | Some _ => None
          | None => Some (emit (set_closers s (delete t (closers s))) [EvCloseRet t e])
          end
      | _ => None
      end
  end.

Fixpoint run (s : State) (ls : list Label) : option State :=
  match ls with
  | [] => Some s
  | l :: ls =>
      match step s l with
      | Some s' => run s' ls
      | None => None
      end
  end.

(** ** The operations of the package, run by one caller *)

(** The error the loop of [Close] ends with, from [e]. *)
Definition close_errs (lns : list Binder) (e : option error) : option error :=
  foldl (λ e ln, close_iter ln e) e lns.

(** [l.Close()], called by [t] and run to its return without any other
    goroutine in between. *)
Definition Close (t : nat) (l : State) : State * option error :=
  if closed l then (emit l [EvCloseClosed t], Some ErrClosed)
  else
    let l1 := set_closed l true in
    let l2 := emit (set_recvq (set_tasks (set_closeCh l1 true) (wake <$> tasks l1)) [])
                (EvShutdown t :: (EvAcceptClosed <$> recvq l1)) in
    let e := close_errs (listeners l2) None in
    (emit l2 (imap (EvBinderClose t) (listeners l2) ++ [EvCloseRet t e]), e).

(** [l.acceptLoop()]: one goroutine per sub-listener, each about to call
    [ln.Accept()]. *)
Definition acceptLoop (l : State) : State :=
  emit (set_tasks l (replicate (length (listeners l)) TAccept))
    (EvSpawn <$> seq 0 (length (listeners l))).

Definition new_Listener : State := mkState [] false false [] [] ∅ [].

(** The loop of [Listen] over the addresses not yet bound: on the left
    the early return from inside the loop, on the right the listener when
    the loop ends. *)
Fixpoint listen_loop (lc : ListenConfig) (addrs : list string) (mln : State)
  : (State * option error) + State :=
  match addrs with
  | [] => inr mln
  | addr :: rest =>
      match lc (length (listeners mln)) addr with
      | inl lerr =>
          let '(mln', cerr) := Close 0 (emit mln [EvBind addr false]) in
          inl (mln', errors_Join [Some lerr; cerr])
      | inr ln =>
          listen_loop lc rest
            (emit (set_listeners mln (listeners mln ++ [ln])) [EvBind addr true])
      end
  end.

(** [Listen(ctx, addrs)]: the listener (or nil), the error (or nil), and
    what was done on the way. *)
Definition Listen (lc : ListenConfig) (addrs : list string)
  : option State * option error * list Event :=
  match addrs with
  | [] => (None, Some (errorString "no addresses to listen on"), [])
  | _ :: _ =>
      match listen_loop lc addrs new_Listener with
      | inl (mln, e) => (None, e, trace mln)
      | inr mln => let l := acceptLoop mln in (Some l, None, trace l)
      end
  end.

(** [l.Addr()]; [None] is the panic of an index out of range. *)
Definition Addr (l : State) : option string :=
  ln_Addr <$> listeners l !! 0.

(** [l.Addrs()]. *)
Definition Addrs (l : State) : list string :=
  ln_Addr <$> listeners l.

(** ** Vocabulary of the properties *)

Definition is_construction (ev : Event) : bool :=
  match ev with
  | EvBind _ _ | EvSpawn _ => true
  | _ => false
  end.

(** A listener as [Listen] returns it: nothing closed, every goroutine
    about to accept, nobody inside [Accept] or [Close]. *)
Definition fresh (s : State) : Prop :=
  listeners s ≠ [] ∧ closeCh s = false ∧ closed s = false ∧
  tasks s = replicate (length (listeners s)) TAccept ∧
  recvq s = [] ∧ closers s = ∅ ∧
  Forall (λ ev, is_construction ev = true) (trace s).

Definition reachable (s : State) : Prop :=
  ∃ s0 ls, fresh s0 ∧ run s0 ls = Some s.

(** [s] is a state of a listener that [Listen lc addrs] returned. *)
Definition running (lc : ListenConfig) (addrs : list string) (s : State) : Prop :=
  ∃ s0 log ls, Listen lc addrs = (Some s0, None, log) ∧ run s0 ls = Some s.

(** What a caller of [Accept] gets back, when the event is such a return. *)
Definition accept_result (ev : Event) : option (nat * connErrPair) :=
  match ev with
  | EvDeliver _ k p => Some (k, p)
  | EvAcceptClosed k => Some (k, {| conn := None; err := Some ErrClosed |})
  | _ => None
  end.

(** What a caller of [Close] gets back, when the event is such a return. *)
Definition close_result (ev : Event) : option (nat * option error) :=
  match ev with
  | EvCloseClosed t => Some (t, Some ErrClosed)
  | EvCloseRet t e => Some (t, e)
  | _ => None
  end.

Definition is_teardown (ev : Event) : bool :=
  match ev with
  | EvShutdown _ | EvBinderClose _ _ _ => true
  | _ => false
  end.

(** The teardown of [Close] by caller [t], in order. *)
Definition teardown_seq (t : nat) (lns : list Binder) : list Event :=
  EvShutdown t :: imap (EvBinderClose t) lns.

(** The first error the sub-listeners return on [Close], in order. *)
Definition first_error (lns : list Binder) : option error :=
  head (omap ln_Close lns).

(** The pair a goroutine has accepted and not yet handed off. *)
Definition holds (pc : TaskPC) : option connErrPair :=
  match pc with
  | TSelect p | TParked p | TClosing p => Some p
  | _ => None
  end.

Fixpoint count (P : Event → bool) (tr : list Event) : nat :=
  match tr with
  | [] => 0
  | ev :: tr => (if P ev then 1 else 0) + count P tr
  end.

Definition is_obtained (i : nat) (c : Conn) (ev : Event) : bool :=
  match ev with
  | EvBinderAccept i' (AcceptConn c') => bool_decide (i' = i) && bool_decide (c' = c)
  | _ => false
  end.

Definition is_delivered (i : nat) (c : Conn) (ev : Event) : bool :=
  match ev with
  | EvDeliver i' _ p => bool_decide (i' = i) && bool_decide (conn p = Some c)
  | _ => false
  end.

Definition is_conn_closed (i : nat) (c : Conn) (ev : Event) : bool :=
  match ev with
  | EvConnClose i' c' => bool_decide (i' = i) && bool_decide (c' = c)
  | _ => false
  end.

(** 1 when a goroutine at [pc] holds the connection [c], else 0. *)
Definition held_pc (c : Conn) (pc : TaskPC) : nat :=
  match holds pc with
  | Some p => if bool_decide (conn p = Some c) then 1 else 0
  | None => 0
  end.

Definition held (s : State) (i : nat) (c : Conn) : nat :=
  from_option (held_pc c) 0 (tasks s !! i).

Definition is_error_delivery (i : nat) (ev : Event) : bool :=
  match ev with
  | EvDeliver i' _ p => bool_decide (i' = i) && bool_decide (err p ≠ None)
  | _ => false
  end.

(** What the goroutine [i] does to leave the select once [l.closeCh] is
    closed. *)
Definition task_exit (pc : TaskPC) (i : nat) : list Label :=
  match pc with
  | TSelect _ => [LTaskSelect i SelClosed; LTaskCloseConn i]
  | _ => [LTaskCloseConn i]
  end.

(** [lns] are the sub-listeners [lc] binds for [addrs], the first of them
    at position [off]. *)
Definition bound_by (lc : ListenConfig) (off : nat) (addrs : list string)
    (lns : list Binder) : Prop :=
  length lns = length addrs ∧
  ∀ i a, addrs !! i = Some a → ∃ ln, lns !! i = Some ln ∧ lc (off + i) a = inr ln.

(** Once [l.closeCh] is closed no caller and no goroutine is blocked. *)
Definition none_parked (s : State) : Prop :=
  closeCh s = true →
  recvq s = [] ∧ ∀ i pc, tasks s !! i = Some pc → is_parked pc = false.

Definition is_shutdown (ev : Event) : bool :=
  match ev with
  | EvShutdown _ => true
  | _ => false
  end.

(** The events after the closing of [l.closeCh]. *)
Fixpoint after_shutdown (tr : list Event) : list Event :=
  match tr with
  | [] => []
  | ev :: tr => if is_shutdown ev then tr else after_shutdown tr
  end.

(** The events before the closing of [l.closeCh]. *)
Fixpoint before_shutdown (tr : list Event) : list Event :=
  match tr with
  | [] => []
  | ev :: tr => if is_shutdown ev then [] else ev :: before_shutdown tr
  end.

(** Case analysis on a step: one goal for each way the action succeeds. *)
Ltac step_inv H :=
  match type of H with
  | step _ ?l = Some _ =>
      destruct l as [?i ?r|?i [?k| |]|?i|?i|?k [?i| |]|?t|?t|?t|?t];
      simpl in H;
      repeat (match type of H with
              | context [match ?x with _ => _ end] =>
                  first
                    [ is_var x; destruct x
                    | let v := fresh "v" in
                      let E := fresh "E" in
                      remember x as v eqn:E in H; symmetry in E; destruct v ]
              end; simpl in H; try discriminate H);
      injection H as <-
  end.

Definition is_deliver (ev : Event) : bool :=
  match ev with
  | EvDeliver _ _ _ => true
  | _ => false
  end.

Definition is_accept_closed (ev : Event) : bool :=
  match ev with
  | EvAcceptClosed _ => true
  | _ => false
  end.

(** The events of the call of [Close] that wins the compare-and-swap. *)
Definition is_close_work (ev : Event) : bool :=
  match ev with
  | EvShutdown _ | EvBinderClose _ _ _ | EvCloseRet _ _ => true
  | _ => false
  end.

Definition is_close_event (ev : Event) : bool :=
  match ev with
  | EvCloseClosed _ => true
  | _ => is_close_work ev
  end.

(** What the winning call of [Close] by [t] does, in order, up to its
    return. *)
Definition close_seq (t : nat) (lns : list Binder) : list Event :=
  teardown_seq t lns ++ [EvCloseRet t (first_error lns)].

(** The actions of a whole call of [Close] by [t] over [n] sub-listeners. *)
Definition close_labels (t n : nat) : list Label :=
  LCloseCAS t :: LCloseCh t :: replicate n (LCloseBinder t) ++ [LCloseRet t].

(** How far the teardown is. *)
Definition teardown_phase (s : State) : Prop :=
  (closed s = false ∧ closeCh s = false ∧ closers s = ∅ ∧
   List.filter is_close_event (trace s) = []) ∨
  (∃ t, closed s = true ∧ closeCh s = false ∧ closers s = {[t := CAt99]} ∧
        List.filter is_close_work (trace s) = []) ∨
  (∃ t j, closed s = true ∧ closeCh s = true ∧ j ≤ length (listeners s) ∧
          closers s = {[t := CLoop j (close_errs (take j (listeners s)) None)]} ∧
          List.filter is_close_work (trace s) = teardown_seq t (take j (listeners s))) ∨
  (∃ t, closed s = true ∧ closeCh s = true ∧ closers s = ∅ ∧
        List.filter is_close_work (trace s) = close_seq t (listeners s)).

(** The events of the goroutine of sub-listener [i]. *)
Definition of_task (i : nat) (ev : Event) : bool :=
  match ev with
  | EvBinderAccept i' _ | EvDeliver i' _ _ | EvConnClose i' _ => bool_decide (i' = i)
  | _ => false
  end.

Definition task_events (i : nat) (tr : list Event) : list Event :=
  List.filter (of_task i) tr.

(** Completed iterations of the loop of goroutine [i]: a connection is
    accepted, then handed to a caller of [Accept]. *)
Inductive rounds (i : nat) : list Event → Prop :=
  | rounds_nil : rounds i []
  | rounds_snoc h c k :
      rounds i h →
      rounds i (h ++ [EvBinderAccept i (AcceptConn c);
                      EvDeliver i k (pair_of (AcceptConn c))]).

(** The history [h] of goroutine [i] when it is at [pc]: completed
    iterations, then what the current iteration has done. *)
Definition task_hist (i : nat) (pc : option TaskPC) (shut : bool)
    (h : list Event) : Prop :=
  match pc with
  | None => h = []
  | Some TAccept => rounds i h
  | Some (TSelect p) | Some (TParked p) =>
      ∃ h0 r, rounds i h0 ∧ h = h0 ++ [EvBinderAccept i r] ∧ p = pair_of r
  | Some (TClosing p) =>
      shut = true ∧
      ∃ h0 r, rounds i h0 ∧ h = h0 ++ [EvBinderAccept i r] ∧ p = pair_of r
  | Some (TSent p) =>
      ∃ h0 r k, rounds i h0 ∧
        h = h0 ++ [EvBinderAccept i r; EvDeliver i k p] ∧ p = pair_of r
  | Some TDone =>
      ∃ h0, rounds i h0 ∧
        ((∃ e k, h = h0 ++ [EvBinderAccept i (AcceptFail e);
                            EvDeliver i k (pair_of (AcceptFail e))]) ∨
         (shut = true ∧
          ∃ c, h = h0 ++ [EvBinderAccept i (AcceptConn c); EvConnClose i c]) ∨
         (shut = true ∧ ∃ e, h = h0 ++ [EvBinderAccept i (AcceptFail e)]))
  end.

(** The goroutine an action belongs to, for the actions of [acceptLoop]. *)
Definition label_task (l : Label) : option nat :=
  match l with
  | LBinderAccept i _ | LTaskSelect i _ | LTaskAfterSend i | LTaskCloseConn i => Some i
  | _ => None
  end.

(** ** A concrete listener

    Two addresses that bind, and one that does not.  Closing the first
    sub-listener fails with [EBADF], closing the second with [EIO]. *)

Definition demo_lc : ListenConfig := λ pos addr,
  if bool_decide (addr = "invalid address")
  then inl (OpError "listen" (errorString "missing port in address"))
  else inr {| ln_id := pos; ln_Addr := addr;
              ln_Close := match pos with
                          | 0 => Some (Errno 9)
                          | 1 => Some (Errno 5)
                          | _ => None
                          end |}.

Definition demo_addrs : list string := ["127.0.0.1:8080"; "127.0.0.1:8081"].

Definition demo_listener : State :=
  default new_Listener (Listen demo_lc demo_addrs).1.1.

(** The listener after the actions [ls]. *)
Definition demo_after (ls : list Label) : State :=
  default demo_listener (run demo_listener ls).

(** A caller blocks in [Accept]; the listener is then closed up to
    [close(l.closeCh)]. *)
Definition run_blocked_then_closed : list Label :=
  [LAccept 3 SelPark; LCloseCAS 0; LCloseCh 0].

(** The first goroutine has accepted connection 7 when the listener is
    closed up to [close(l.closeCh)]. *)
Definition run_held_at_shutdown : list Label :=
  [LBinderAccept 0 (AcceptConn 7); LCloseCAS 0; LCloseCh 0].

(** A call of [Close] up to [close(l.closeCh)]. *)
Definition run_closing : list Label :=
  [LCloseCAS 0; LCloseCh 0].

(** A whole call of [Close] by caller 0, then a call by caller 1. *)
Definition run_closed_twice : list Label :=
  [LCloseCAS 0; LCloseCh 0; LCloseBinder 0; LCloseBinder 0; LCloseRet 0;
   LCloseCAS 1].

(** Caller 5 blocks in [Accept]; the first sub-listener, closed behind the
    listener's back, fails its accept with an error that wraps
    [net.ErrClosed]; its goroutine hands the error to caller 5. *)
Definition run_error_forwarded : list Label :=
  [LAccept 5 SelPark;
   LBinderAccept 0 (AcceptFail (OpError "accept" ErrClosed));
   LTaskSelect 0 (SelComm 5)].

(** The same, then the goroutine returns, the listener is closed up to
    [close(l.closeCh)], and caller 6 calls [Accept]. *)
Definition run_error_then_closed : list Label :=
  [LAccept 5 SelPark;
   LBinderAccept 0 (AcceptFail (OpError "accept" ErrClosed));
   LTaskSelect 0 (SelComm 5); LTaskAfterSend 0;
   LCloseCAS 0; LCloseCh 0; LAccept 6 SelClosed].

(** A whole call of [Close]; the accept of the first sub-listener, now
    closed, fails; its goroutine enters the select, takes the closeCh
    case, the only one ready, and returns. *)
Definition run_error_after_close : list Label :=
  [LCloseCAS 0; LCloseCh 0; LCloseBinder 0; LCloseBinder 0; LCloseRet 0;
   LBinderAccept 0 (AcceptFail (OpError "accept" ErrClosed));
   LTaskSelect 0 SelClosed; LTaskCloseConn 0].

(** The first goroutine has accepted connection 7 and is blocked in its
    select: no caller of [Accept] is there to take it. *)
Definition run_parked : list Label :=
  [LBinderAccept 0 (AcceptConn 7); LTaskSelect 0 SelPark].

(** ** The listeners of the package's tests

    Every address binds but ["invalid address"]; the sub-listeners close
    without error and report the address they were asked for. *)

Definition test_lc : ListenConfig := λ pos addr,
  if bool_decide (addr = "invalid address")
  then inl (OpError "listen" (errorString "missing port in address"))
  else inr {| ln_id := pos; ln_Addr := addr; ln_Close := None |}.

Definition test_addrs : list string :=
  ["127.0.0.1:4001"; "127.0.0.1:4002"; "127.0.0.1:4003"].

Definition test_listener (addrs : list string) : State :=
  default new_Listener (Listen test_lc addrs).1.1.

(** ** Socket options ([control])

    [control] is the function [Listen] installs as [lc.Control]: it sets
    [SO_REUSEADDR] and then [SO_REUSEPORT] on the socket. *)

Inductive SockLevel : Type := SOL_SOCKET.

Inductive SockOpt : Type := SO_REUSEADDR | SO_REUSEPORT.

(** One call [unix.SetsockoptInt(fd, level, opt, value)]. *)
Record SockCall : Type := mkSockCall {
  sc_fd : nat;
  sc_level : SockLevel;
  sc_opt : SockOpt;
  sc_value : nat;
}.

(** What [unix.SetsockoptInt] returns for a call. *)
Definition Setsockopt := SockCall → option error.

(** A [syscall.RawConn] as [control] uses it: the descriptor [c.Control]
    invokes its argument on ([None] when it does not invoke it), and the
    error [c.Control] returns. *)
Record RawConn : Type := mkRawConn {
  rc_fd : option nat;
  rc_err : option error;
}.

(** The function [control] passes to [c.Control]: the value it leaves in
    [sockErr], and the calls it made, in order. *)
Definition control_body (so : Setsockopt) (fd : nat) : option error * list SockCall :=
  match so (mkSockCall fd SOL_SOCKET SO_REUSEADDR 1) with
  | Some e => (Some e, [mkSockCall fd SOL_SOCKET SO_REUSEADDR 1])
  | None =>
      (so (mkSockCall fd SOL_SOCKET SO_REUSEPORT 1),
       [mkSockCall fd SOL_SOCKET SO_REUSEADDR 1;
        mkSockCall fd SOL_SOCKET SO_REUSEPORT 1])
  end.

(** [control(c)]: its result, and the calls of [unix.SetsockoptInt] it
    made. *)
Definition control (so : Setsockopt) (c : RawConn) : option error * list SockCall :=
  let '(sockErr, calls) :=
    match rc_fd c with
    | Some fd => control_body so fd
    | None => (None, [])
    end in
  (errors_Join [rc_err c; sockErr], calls).

(** ** More vocabulary *)

(** The connection, when the event is sub-listener [i] accepting one. *)
Definition accepted_conn (i : nat) (ev : Event) : option Conn :=
  match ev with
  | EvBinderAccept i' (AcceptConn c) => if bool_decide (i' = i) then Some c else None
  | _ => None
  end.

(** The connection, when the event is goroutine [i] handing one off. *)
Definition delivered_conn (i : nat) (ev : Event) : option Conn :=
  match ev with
  | EvDeliver i' _ p => if bool_decide (i' = i) then conn p else None
  | _ => None
  end.

(** The connections sub-listener [i] accepted, in order. *)
Definition accepted_conns (i : nat) (tr : list Event) : list Conn :=
  omap (accepted_conn i) tr.

(** The connections of sub-listener [i] that callers of [Accept] got, in
    order. *)
Definition delivered_conns (i : nat) (tr : list Event) : list Conn :=
  omap (delivered_conn i) tr.

Definition is_spawn (ev : Event) : bool :=
  match ev with
  | EvSpawn _ => true
  | _ => false
  end.

(** What goroutine [i] does from [ln.Accept()] returning to its own
    return, once [l.closeCh] is closed. *)
Definition task_exit_from_accept (i : nat) (r : AcceptResult) : list Label :=
  [LBinderAccept i r; LTaskSelect i SelClosed; LTaskCloseConn i].

(** A connection arrives on sub-listener [i] and is handed to a caller of
    [Accept]: to the caller [k] that is blocked, when there is one, else to
    a caller [k] that calls once the goroutine is blocked in its select. *)
Definition serve_labels (blocked : bool) (i k : nat) (c : Conn) : list Label :=
  if blocked
  then [LBinderAccept i (AcceptConn c); LTaskSelect i (SelComm k); LTaskAfterSend i]
  else [LBinderAccept i (AcceptConn c); LTaskSelect i SelPark;
        LAccept k (SelComm i); LTaskAfterSend i].

(** A kernel that accepts [SO_REUSEADDR] and refuses [SO_REUSEPORT] with
    [ENOPROTOOPT], and a socket whose [Control] works. *)
Definition demo_setsockopt : Setsockopt := λ call,
  match sc_opt call with
  | SO_REUSEADDR => None
  | SO_REUSEPORT => Some (Errno 92)
  end.

Definition demo_rawconn : RawConn := {| rc_fd := Some 3; rc_err := None |}.

(** No caller of [Accept] is blocked while a goroutine is blocked in its
    select, and no caller is blocked twice. *)
Definition rendezvous (s : State) : Prop :=
  NoDup (recvq s) ∧
  (recvq s ≠ [] → ∀ i pc, tasks s !! i = Some pc → is_parked pc = false).

(** A connection is accepted and handed off on the first sub-listener,
    then a second one is accepted. *)
Definition run_two_accepts : list Label :=
  [LAccept 5 SelPark; LBinderAccept 0 (AcceptConn 7); LTaskSelect 0 (SelComm 5);
   LTaskAfterSend 0; LBinderAccept 0 (AcceptConn 8)].

(** The first sub-listener fails and its goroutine returns after handing
    the error to caller 5. *)
Definition run_first_failed : list Label :=
  [LAccept 5 SelPark;
   LBinderAccept 0 (AcceptFail (OpError "accept" ErrClosed));
   LTaskSelect 0 (SelComm 5); LTaskAfterSend 0].

(** * Properties *)

(** ** Errors and the loop of [Close] *)

Lemma close_errs_Some lns e : close_errs lns (Some e) = Some e.
Proof.
  unfold close_errs. induction lns as [|ln lns IH]; simpl; [done|].
  unfold close_iter at 2. by destruct (ln_Close ln).
Qed.

Lemma close_errs_first lns : close_errs lns None = first_error lns.
Proof.
  unfold first_error. induction lns as [|ln lns IH]; simpl; [done|].
  unfold close_errs in *. simpl. unfold close_iter at 2.
  destruct (ln_Close ln) as [c|]; simpl; [|done].
  apply (close_errs_Some lns c).
Qed.

Lemma close_errs_snoc lns ln e :
  close_errs (lns ++ [ln]) e = close_iter ln (close_errs lns e).
Proof. unfold close_errs. by rewrite foldl_app. Qed.

(** ** Construction *)

Lemma listen_loop_bound lc pre rest lns mln :
  bound_by lc (length (listeners mln)) pre lns →
  listen_loop lc (pre ++ rest) mln =
  listen_loop lc rest
    (emit (set_listeners mln (listeners mln ++ lns)) ((λ a, EvBind a true) <$> pre)).
Proof.
  revert lns mln. induction pre as [|a pre IH]; intros lns mln [Hlen Hb].
  - destruct lns; [|done]. destruct mln. unfold emit, set_listeners. simpl.
    by rewrite !app_nil_r.
  - destruct lns as [|ln lns]; [done|].
    destruct (Hb 0 a eq_refl) as (ln' & Hln' & Hlc). simplify_eq/=.
    rewrite Nat.add_0_r in Hlc. rewrite Hlc.
    rewrite (IH lns).
    + destruct mln. unfold emit, set_listeners. simpl.
      by rewrite <- !app_assoc.
    + split; [simpl in *; lia|]. intros i b Hi. simpl. rewrite length_app. simpl.
      destruct (Hb (S i) b Hi) as (ln'' & ? & Hlc'). exists ln''. split; [done|].
      rewrite <- Hlc'. f_equal. lia.
Qed.

Lemma listen_loop_inr lc addrs mln mln' :
  listen_loop lc addrs mln = inr mln' →
  ∃ lns, bound_by lc (length (listeners mln)) addrs lns ∧
    mln' = emit (set_listeners mln (listeners mln ++ lns))
             ((λ a, EvBind a true) <$> addrs).
Proof.
  revert mln. induction addrs as [|a addrs IH]; intros mln H; simpl in H.
  - exists []. split; [by split|]. injection H as <-.
    destruct mln. unfold emit, set_listeners. simpl. by rewrite !app_nil_r.
  - destruct (lc (length (listeners mln)) a) as [lerr|ln] eqn:Hlc.
    + destruct (Close 0 _). done.
    + apply IH in H as (lns & [Hlen Hb] & ->). simpl in *.
      rewrite length_app in Hb. simpl in Hb.
      exists (ln :: lns). split.
      * split; [simpl; lia|]. intros [|i] b Hi; simpl in *.
        -- simplify_eq. exists ln. by rewrite Nat.add_0_r.
        -- destruct (Hb i b Hi) as (ln' & ? & Hlc'). exists ln'. split; [done|].
           rewrite <- Hlc'. f_equal. lia.
      * destruct mln. unfold emit, set_listeners. simpl.
        by rewrite <- !app_assoc.
Qed.

Lemma Listen_Some lc addrs s0 e log :
  Listen lc addrs = (Some s0, e, log) →
  ∃ lns, bound_by lc 0 addrs lns ∧ addrs ≠ [] ∧ e = None ∧ log = trace s0 ∧
    s0 = acceptLoop (emit (set_listeners new_Listener lns)
                       ((λ a, EvBind a true) <$> addrs)).
Proof.
  unfold Listen. destruct addrs as [|a addrs]; [done|].
  destruct (listen_loop lc (a :: addrs) new_Listener) as [[mln e']|mln] eqn:Hl; [done|].
  intros ?. simplify_eq. apply listen_loop_inr in Hl as (lns & Hb & ->).
  exists lns. done.
Qed.

Lemma Listen_fresh lc addrs s0 e log :
  Listen lc addrs = (Some s0, e, log) → fresh s0.
Proof.
  intros (lns & [Hlen Hb] & Hne & -> & -> & ->)%Listen_Some.
  unfold fresh, acceptLoop. simpl. repeat split; try done.
  - destruct lns; [|done]. by destruct addrs.
  - apply Forall_app. split; apply Forall_fmap, Forall_true; done.
Qed.

(** ** Runs *)

Lemma run_app s ls1 ls2 :
  run s (ls1 ++ ls2) = run s ls1 ≫= λ s', run s' ls2.
Proof.
  revert s. induction ls1 as [|l ls1 IH]; intros s; simpl; [done|].
  destruct (step s l); simpl; [apply IH|done].
Qed.

Lemma reachable_fresh s : fresh s → reachable s.
Proof. intros H. by exists s, []. Qed.

Lemma reachable_step s l s' : reachable s → step s l = Some s' → reachable s'.
Proof.
  intros (s0 & ls & Hf & Hr) Hs. exists s0, (ls ++ [l]). split; [done|].
  rewrite run_app, Hr. simpl. by rewrite Hs.
Qed.

Lemma reachable_run s ls s' : reachable s → run s ls = Some s' → reachable s'.
Proof.
  revert s. induction ls as [|l ls IH]; intros s Hs Hr; simpl in Hr.
  - by simplify_eq.
  - destruct (step s l) as [s1|] eqn:E; [|done].
    eapply IH; [|done]. by eapply reachable_step.
Qed.

(** Induction over the reachable states. *)
Lemma reachable_ind (P : State → Prop) :
  (∀ s, fresh s → P s) →
  (∀ s l s', reachable s → P s → step s l = Some s' → P s') →
  ∀ s, reachable s → P s.
Proof.
  intros Hbase Hstep s (s0 & ls & Hf & Hr).
  revert s Hr. induction ls as [|l ls IH] using rev_ind; intros s Hr.
  - simpl in Hr. simplify_eq. by apply Hbase.
  - rewrite run_app in Hr. destruct (run s0 ls) as [s1|] eqn:E; [|done].
    simpl in Hr. destruct (step s1 l) as [s2|] eqn:E2; [|done]. simplify_eq.
    eapply Hstep; [|by apply IH|done]. by exists s0, ls.
Qed.

Lemma running_reachable lc addrs s : running lc addrs s → reachable s.
Proof.
  intros (s0 & log & ls & HL & Hr). exists s0, ls. split; [|done].
  by eapply Listen_fresh.
Qed.

Lemma step_listeners s l s' : step s l = Some s' → listeners s' = listeners s.
Proof. intros H. step_inv H; done. Qed.

Lemma step_tasks_length s l s' :
  step s l = Some s' → length (tasks s') = length (tasks s).
Proof.
  intros H. step_inv H; simpl; rewrite ?length_insert, ?length_fmap; done.
Qed.

Lemma step_trace s l s' : step s l = Some s' → ∃ evs, trace s' = trace s ++ evs.
Proof.
  intros H. step_inv H; simpl; try (by eexists); by (exists []; rewrite app_nil_r).
Qed.

Lemma step_closed s l s' : step s l = Some s' → closed s = true → closed s' = true.
Proof. intros H. step_inv H; simpl; congruence. Qed.

Lemma step_closeCh s l s' : step s l = Some s' → closeCh s = true → closeCh s' = true.
Proof. intros H. step_inv H; simpl; congruence. Qed.

Lemma run_listeners s ls s' : run s ls = Some s' → listeners s' = listeners s.
Proof.
  revert s. induction ls as [|l ls IH]; intros s H; simpl in H; [by simplify_eq|].
  destruct (step s l) as [s1|] eqn:E; [|done].
  rewrite (IH _ H). by eapply step_listeners.
Qed.

Lemma run_closed s ls s' : run s ls = Some s' → closed s = true → closed s' = true.
Proof.
  revert s. induction ls as [|l ls IH]; intros s H Hc; simpl in H; [by simplify_eq|].
  destruct (step s l) as [s1|] eqn:E; [|done].
  eapply IH; [done|]. by eapply step_closed.
Qed.

Lemma run_closeCh s ls s' : run s ls = Some s' → closeCh s = true → closeCh s' = true.
Proof.
  revert s. induction ls as [|l ls IH]; intros s H Hc; simpl in H; [by simplify_eq|].
  destruct (step s l) as [s1|] eqn:E; [|done].
  eapply IH; [done|]. by eapply step_closeCh.
Qed.

(** ** Nobody stays blocked once [l.closeCh] is closed *)

Lemma wake_not_parked pc : is_parked (wake pc) = false.
Proof. by destruct pc. Qed.

Lemma lookup_insert_task (ts : list TaskPC) i j pc pc' :
  <[i := pc]> ts !! j = Some pc' → (j = i ∧ pc' = pc) ∨ (j ≠ i ∧ ts !! j = Some pc').
Proof.
  destruct (decide (i = j)) as [->|Hne].
  - intros H. destruct (decide (j < length ts)).
    + rewrite list_lookup_insert_eq in H by done. left. by simplify_eq.
    + rewrite list_insert_ge in H by lia. apply lookup_lt_Some in H. lia.
  - rewrite list_lookup_insert_ne by done. intros. right. by split.
Qed.

Lemma none_parked_inv s : reachable s → none_parked s.
Proof.
  induction 1 as [s Hf|s l s' Hr IH Hs] using reachable_ind.
  - destruct Hf as (_ & Hc & _). intros ?. congruence.
  - unfold none_parked in *. step_inv Hs; simpl in *; intros Hc;
      try (destruct (IH Hc) as [Hq Hp]);
      try congruence;
      try (split; [by rewrite ?Hq|];
           intros j pc' [[-> ->]|[? ?]]%lookup_insert_task; [done|by eapply Hp]);
      try (split; [done|]; by eapply Hp).
    + rewrite Hc in E0. done.
    + split; [done|]. intros j pc' Hl. rewrite list_lookup_fmap in Hl.
      destruct (tasks s !! j); simplify_eq/=. apply wake_not_parked.
Qed.

(** ** Order of the events around the closing of [l.closeCh] *)

Lemma after_shutdown_app tr evs :
  after_shutdown (tr ++ evs) =
  if existsb is_shutdown tr then after_shutdown tr ++ evs else after_shutdown evs.
Proof.
  induction tr as [|ev tr IH]; simpl; [done|].
  destruct (is_shutdown ev); simpl; done.
Qed.

Lemma before_shutdown_none tr :
  existsb is_shutdown tr = false → before_shutdown tr = tr.
Proof.
  induction tr as [|ev tr IH]; simpl; [done|].
  destruct (is_shutdown ev); simpl; [done|]. intros H. by rewrite IH.
Qed.

Lemma before_shutdown_app tr evs :
  before_shutdown (tr ++ evs) =
  if existsb is_shutdown tr then before_shutdown tr else tr ++ before_shutdown evs.
Proof.
  induction tr as [|ev tr IH]; simpl; [done|].
  destruct (is_shutdown ev); simpl; [done|].
  rewrite IH. by destruct (existsb is_shutdown tr).
Qed.

Lemma shutdown_split tr :
  existsb is_shutdown tr = true →
  ∃ t, tr = before_shutdown tr ++ EvShutdown t :: after_shutdown tr.
Proof.
  induction tr as [|ev tr IH]; simpl; [done|].
  destruct (is_shutdown ev) eqn:E; simpl.
  - intros _. destruct ev; try done. by eexists.
  - intros [t Ht]%IH. exists t. by rewrite <- Ht.
Qed.

Lemma existsb_fmap_AcceptClosed (q : list nat) :
  existsb is_shutdown (EvAcceptClosed <$> q) = false.
Proof. induction q; simpl; done. Qed.

Lemma fresh_no_shutdown s : fresh s → existsb is_shutdown (trace s) = false.
Proof.
  intros (_ & _ & _ & _ & _ & _ & H).
  induction H as [|ev tr Hev _ IH]; simpl; [done|].
  rewrite IH. by destruct ev.
Qed.

(** [l.closeCh] is closed exactly when the history has the event. *)
Lemma closeCh_trace s : reachable s → closeCh s = existsb is_shutdown (trace s).
Proof.
  induction 1 as [s Hf|s l s' Hr IH Hs] using reachable_ind.
  - rewrite fresh_no_shutdown by done. by destruct Hf as (_ & -> & _).
  - step_inv Hs; simpl; rewrite ?existsb_app; simpl;
      rewrite ?orb_false_r, ?orb_true_r; done.
Qed.

Lemma deliver_before_shutdown s :
  reachable s → Forall (λ ev, is_deliver ev = false) (after_shutdown (trace s)).
Proof.
  induction 1 as [s Hf|s l s' Hr IH Hs] using reachable_ind.
  - pose proof (fresh_no_shutdown s Hf) as Hn.
    destruct Hf as (_ & _ & _ & _ & _ & _ & Hf).
    induction Hf as [|ev tr Hev _ IH']; simpl in *; [done|].
    destruct ev; simpl in *; try done; by apply IH'.
  - pose proof (none_parked_inv s Hr) as Hp.
    pose proof (closeCh_trace s Hr) as Hc. unfold none_parked in Hp.
    step_inv Hs; simpl; try done; rewrite after_shutdown_app, <- Hc;
      destruct (closeCh s) eqn:Hcc; simpl;
      try (apply Forall_app; split; [done|]);
      try (by repeat constructor).
    + destruct (Hp eq_refl) as [Hq _]. rewrite Hq in *.
      match goal with H : bool_decide _ = true |- _ =>
        by apply bool_decide_eq_true_1, elem_of_nil in H end.
    + destruct (Hp eq_refl) as [_ Hq].
      match goal with H : tasks s !! _ = Some (TParked _) |- _ =>
        by apply Hq in H end.
    + apply Forall_fmap, Forall_true. done.
Qed.

Lemma accept_closed_not_before s :
  reachable s →
  Forall (λ ev, is_accept_closed ev = false) (before_shutdown (trace s)).
Proof.
  induction 1 as [s Hf|s l s' Hr IH Hs] using reachable_ind.
  - rewrite before_shutdown_none by by apply fresh_no_shutdown.
    destruct Hf as (_ & _ & _ & _ & _ & _ & Hf).
    eapply Forall_impl; [done|]. intros ev ?. by destruct ev.
  - pose proof (closeCh_trace s Hr) as Hc.
    step_inv Hs; simpl; try done; rewrite before_shutdown_app, <- Hc;
      destruct (closeCh s) eqn:Hcc; simpl; try done;
      rewrite before_shutdown_none in IH by (by rewrite <- Hc);
      try (apply Forall_app; split; [done|]);
      try (by repeat constructor).

Qed.

(** ** Every accepted connection is held, delivered or closed *)

Lemma count_app P tr evs : count P (tr ++ evs) = count P tr + count P evs.
Proof. induction tr as [|ev tr IH]; simpl; [done|]. rewrite IH. lia. Qed.

Lemma count_construction P tr :
  (∀ ev, is_construction ev = true → P ev = false) →
  Forall (λ ev, is_construction ev = true) tr → count P tr = 0.
Proof.
  intros HP. induction 1 as [|ev tr Hev _ IH]; simpl; [done|].
  by rewrite (HP ev Hev), IH.
Qed.

Lemma count_AcceptClosed P (q : list nat) :
  (∀ k, P (EvAcceptClosed k) = false) → count P (EvAcceptClosed <$> q) = 0.
Proof. intros HP. induction q as [|k q IH]; simpl; [done|]. rewrite HP. apply IH. Qed.

Lemma held_set_task_ne s i j pc c : i ≠ j → held (set_task s j pc) i c = held s i c.
Proof. intros H. unfold held. simpl. by rewrite list_lookup_insert_ne. Qed.

Lemma held_set_task_eq s i pc0 pc c :
  tasks s !! i = Some pc0 → held (set_task s i pc) i c = held_pc c pc.
Proof.
  intros H. unfold held. simpl.
  rewrite list_lookup_insert_eq; [done|]. by eapply lookup_lt_Some.
Qed.

Lemma held_lookup s i pc c : tasks s !! i = Some pc → held s i c = held_pc c pc.
Proof. intros H. unfold held. by rewrite H. Qed.

Lemma held_pc_wake c pc : held_pc c (wake pc) = held_pc c pc.
Proof. by destruct pc. Qed.

Lemma conservation s i c :
  reachable s →
  count (is_obtained i c) (trace s) =
  count (is_delivered i c) (trace s) + count (is_conn_closed i c) (trace s) + held s i c.
Proof.
  induction 1 as [s Hf|s l s' Hr IH Hs] using reachable_ind.
  - destruct Hf as (_ & _ & _ & Ht & _ & _ & Hf).
    rewrite !count_construction; try done; try (by intros []).
    unfold held. rewrite Ht. destruct (decide (i < length (listeners s))).
    + by rewrite lookup_replicate_2.
    + rewrite lookup_ge_None_2; [done|]. rewrite length_replicate. lia.
  - unfold held in *.
    step_inv Hs; simpl; rewrite ?count_app; simpl;
      rewrite ?Nat.add_0_r; try done;
      try (destruct (decide (i = i0)) as [->|Hne];
           [rewrite list_lookup_insert_eq by (by eapply lookup_lt_Some);
            match goal with H : tasks s !! _ = Some _ |- _ => rewrite H in IH end
           |rewrite list_lookup_insert_ne by done];
           simpl in *; unfold held_pc in *; simpl in *;
           repeat case_bool_decide; simplify_eq/=;
           repeat (match goal with r : AcceptResult |- _ => destruct r end;
                   simpl in *; repeat case_bool_decide; simplify_eq/=);
           lia).
    rewrite !count_AcceptClosed by done. rewrite list_lookup_fmap.
    destruct (tasks s !! i) as [pc|]; simpl in *; [|lia].
    rewrite held_pc_wake. lia.
Qed.

(** ** The teardown happens once *)

Lemma filter_construction P tr :
  (∀ ev, is_construction ev = true → P ev = false) →
  Forall (λ ev, is_construction ev = true) tr → List.filter P tr = [].
Proof.
  intros HP. induction 1 as [|ev tr Hev _ IH]; simpl; [done|].
  by rewrite (HP ev Hev), IH.
Qed.

Lemma filter_AcceptClosed P (q : list nat) :
  (∀ k, P (EvAcceptClosed k) = false) → List.filter P (EvAcceptClosed <$> q) = [].
Proof. intros HP. induction q as [|k q IH]; simpl; [done|]. rewrite HP. apply IH. Qed.

Lemma teardown_seq_S t lns j ln :
  lns !! j = Some ln →
  teardown_seq t (take (S j) lns) = teardown_seq t (take j lns) ++ [EvBinderClose t j ln].
Proof.
  intros H. unfold teardown_seq. rewrite (take_S_r _ _ _ H), imap_app. simpl.
  rewrite length_take_le by (apply lookup_lt_Some in H; lia).
  by rewrite Nat.add_0_r.
Qed.

Lemma teardown_phase_inv s : reachable s → teardown_phase s.
Proof.
  induction 1 as [s Hf|s l s' Hr IH Hs] using reachable_ind.
  - left. destruct Hf as (_ & ? & ? & _ & _ & ? & Hf). repeat split; try done.
    apply filter_construction; [|done]. by intros [].
  - unfold teardown_phase in *.
    step_inv Hs; simpl in *; rewrite ?List.filter_app; simpl; rewrite ?app_nil_r;
      rewrite ?filter_AcceptClosed by done;
      try exact IH;
      destruct IH as [(Hcl & Hch & Hcs & Htr)|[(t0 & Hcl & Hch & Hcs & Htr)|
        [(t0 & j0 & Hcl & Hch & Hj & Hcs & Htr)|(t0 & Hcl & Hch & Hcs & Htr)]]];
      try congruence;
      try (match goal with E : closers s !! _ = Some _ |- _ =>
             rewrite Hcs in E;
             first [ by rewrite lookup_empty in E
                   | apply lookup_singleton_Some in E as [<- ?]; simplify_eq ]
           end).
    + right; left. exists t0. done.
    + right; right; left. exists t0, j0. done.
    + right; right; right. exists t0. done.
    + right; left. exists t. rewrite Hcs. repeat split; try done.
      clear -Htr. induction (trace s) as [|ev tr IH]; simpl in *; [done|].
      destruct ev; simpl in *; try done; by apply IH.
    + right; right; left. exists t0, 0. rewrite Hcs, insert_singleton_eq.
      rewrite Htr. repeat split; try done. lia.
    + right; right; left. exists t0, (S j).
      rewrite Hcs, insert_singleton_eq, Htr.
      match goal with H : listeners s !! _ = Some _ |- _ =>
        rewrite (teardown_seq_S _ _ _ _ H), (take_S_r _ _ _ H), close_errs_snoc;
        apply lookup_lt_Some in H end.
      repeat split; try done.
    + right; right; right. exists t0. rewrite Hcs, delete_singleton_eq, Htr.
      match goal with H : listeners s !! _ = None |- _ =>
        apply lookup_ge_None in H end.
      rewrite take_ge, close_errs_first by lia. done.
Qed.

(** ** [Close] run by one caller, and as a sequence of actions *)

Lemma Close_first t l :
  closed l = false →
  Close t l =
  (mkState (listeners l) true true (wake <$> tasks l) [] (closers l)
     (trace l ++ EvShutdown t :: (EvAcceptClosed <$> recvq l) ++
        imap (EvBinderClose t) (listeners l) ++
        [EvCloseRet t (first_error (listeners l))]),
   first_error (listeners l)).
Proof.
  intros H. unfold Close. rewrite H. simpl. rewrite close_errs_first.
  unfold emit. simpl. by rewrite <- app_assoc.
Qed.

Lemma Close_again t l :
  closed l = true → Close t l = (emit l [EvCloseClosed t], Some ErrClosed).
Proof. intros H. unfold Close. by rewrite H. Qed.

Lemma Close_closed t l : closed (Close t l).1 = true.
Proof.
  destruct (closed l) eqn:E.
  - by rewrite Close_again.
  - by rewrite Close_first.
Qed.

Lemma run_close_loop t k : ∀ s j e,
  closers s !! t = Some (CLoop j e) →
  j + k = length (listeners s) →
  run s (replicate k (LCloseBinder t) ++ [LCloseRet t]) =
  Some (emit (set_closers s (delete t (closers s)))
          (imap (λ n, EvBinderClose t (j + n)) (drop j (listeners s)) ++
           [EvCloseRet t (close_errs (drop j (listeners s)) e)])).
Proof.
  induction k as [|k IH]; intros s j e Hc Hj; simpl.
  - rewrite Hc. rewrite (lookup_ge_None_2 (listeners s) j) by lia.
    rewrite drop_ge by lia. done.
  - rewrite Hc. destruct (lookup_lt_is_Some_2 (listeners s) j) as [ln Hln]; [lia|].
    rewrite Hln. rewrite (IH _ (S j) (close_iter ln e)); simpl.
    + rewrite (drop_S _ _ _ Hln). simpl. rewrite delete_insert_eq.
      unfold emit, set_closers. simpl. rewrite <- app_assoc. simpl.
      rewrite Nat.add_0_r.
      rewrite (imap_ext _ ((λ n, EvBinderClose t (j + n)) ∘ S)); [done|].
      intros n x _. simpl. f_equal. lia.
    + by rewrite lookup_insert_eq.
    + lia.
Qed.

(** The actions of a call that wins the compare-and-swap, run one after
    the other, are [Close] run by one caller. *)
Lemma Close_run t s :
  closed s = false → closeCh s = false → closers s !! t = None →
  run s (close_labels t (length (listeners s))) = Some (Close t s).1.
Proof.
  intros Hcl Hch Hcs. rewrite Close_first by done. unfold close_labels. simpl.
  rewrite Hcs, Hcl. simpl. rewrite lookup_insert_eq, Hch.
  rewrite (run_close_loop t _ _ 0 None); simpl; [|by rewrite lookup_insert_eq|done].
  rewrite drop_0, close_errs_first, insert_insert_eq, delete_insert_eq.
  rewrite (delete_id _ _ Hcs). unfold emit, set_closers. simpl.
  by rewrite <- app_assoc.
Qed.

(** ** The history of one goroutine *)

Lemma task_events_app i tr evs :
  task_events i (tr ++ evs) = task_events i tr ++ task_events i evs.
Proof. apply List.filter_app. Qed.

Lemma task_events_AcceptClosed i (q : list nat) :
  task_events i (EvAcceptClosed <$> q) = [].
Proof. by apply filter_AcceptClosed. Qed.

Lemma task_hist_shut i pc h :
  task_hist i pc false h → task_hist i pc true h.
Proof.
  destruct pc as [[]|]; simpl; try done.
  - by intros [? _].
  - intros (h0 & ? & [?|[[? _]|[? _]]]); [|done..]. exists h0. split; [done|]. by left.
Qed.

Lemma task_hist_mono i pc b h :
  task_hist i pc b h → task_hist i pc true h.
Proof. destruct b; [done|apply task_hist_shut]. Qed.

Lemma task_hist_wake i pc b h :
  task_hist i pc b h → task_hist i (wake <$> pc) true h.
Proof.
  destruct pc as [pc|]; [|done]. intros H.
  destruct pc; try (by apply (task_hist_mono i (Some _) b)).
  by split.
Qed.

Lemma task_hist_inv s i :
  reachable s → task_hist i (tasks s !! i) (closeCh s) (task_events i (trace s)).
Proof.
  induction 1 as [s Hf|s l s' Hr IH Hs] using reachable_ind.
  - destruct Hf as (_ & _ & _ & Ht & _ & _ & Hf).
    unfold task_events. rewrite filter_construction; [|by intros []|done].
    rewrite Ht. destruct (decide (i < length (listeners s))).
    + rewrite lookup_replicate_2 by done. constructor.
    + rewrite lookup_ge_None_2; [done|]. rewrite length_replicate. lia.
  - step_inv Hs; simpl; rewrite ?task_events_app; simpl;
      rewrite ?task_events_AcceptClosed, ?app_nil_r; try exact IH;
      try (destruct (decide (i = i0)) as [->|Hne];
           [rewrite list_lookup_insert_eq by (by eapply lookup_lt_Some);
            rewrite ?bool_decide_eq_true_2 by done;
            match goal with H : tasks s !! _ = Some _ |- _ => rewrite H in IH end;
            simpl in *
           |rewrite list_lookup_insert_ne by done;
            rewrite ?bool_decide_eq_false_2 by done;
            rewrite ?app_nil_r; exact IH]).
    + exists (task_events i0 (trace s)), r. done.
    + destruct IH as (h0 & r & Hh & -> & ->). exists h0, r, k.
      by rewrite <- app_assoc.
    + done.
    + done.
    + destruct IH as (h0 & r & k & Hh & -> & ->). exists h0. split; [done|].
      left. destruct r; simplify_eq/=. by eexists _, _.
    + destruct IH as (h0 & r & k & Hh & -> & ->).
      destruct r; simplify_eq/=. by constructor.
    + destruct IH as (Hc & h0 & r & Hh & -> & ->). exists h0. split; [done|].
      right; left. split; [done|]. destruct r; simplify_eq/=. exists c.
      by rewrite <- app_assoc.
    + destruct IH as (Hc & h0 & r & Hh & -> & ->). exists h0. split; [done|].
      right; right. split; [done|]. destruct r; simplify_eq/=. by eexists.
    + destruct IH as (h0 & r & Hh & -> & ->). exists h0, r, k.
      by rewrite <- app_assoc.
    + rewrite list_lookup_fmap. by eapply task_hist_wake.
Qed.

Lemma rounds_no_fail i h i' e :
  rounds i h → EvBinderAccept i' (AcceptFail e) ∉ h.
Proof.
  induction 1 as [|h c k _ IH]; [apply not_elem_of_nil|].
  rewrite elem_of_app, !elem_of_cons, elem_of_nil.
  intros [?|[?|[?|[]]]]; [by apply IH|done|done].
Qed.

Lemma rounds_error_delivery i h i' :
  rounds i h → count (is_error_delivery i') h = 0.
Proof.
  induction 1 as [|h c k _ IH]; [done|].
  rewrite count_app, IH. simpl. by rewrite andb_false_r.
Qed.

Lemma rounds_deliver i h i' k p :
  rounds i h → EvDeliver i' k p ∈ h →
  ∃ c, p = pair_of (AcceptConn c) ∧ EvBinderAccept i' (AcceptConn c) ∈ h.
Proof.
  induction 1 as [|h c k' _ IH]; [by intros ?%elem_of_nil|].
  rewrite elem_of_app, !elem_of_cons, elem_of_nil.
  intros [Hin|[?|[?|[]]]]; simplify_eq.
  - destruct (IH Hin) as (c' & -> & ?). exists c'. split; [done|].
    apply elem_of_app. by left.
  - exists c. split; [done|]. rewrite elem_of_app, !elem_of_cons. right. by left.
Qed.

Lemma elem_of_task_events i ev tr :
  ev ∈ task_events i tr ↔ ev ∈ tr ∧ of_task i ev = true.
Proof.
  unfold task_events. rewrite !list_elem_of_In. apply List.filter_In.
Qed.

Lemma count_task_events P i tr :
  (∀ ev, P ev = true → of_task i ev = true) →
  count P (task_events i tr) = count P tr.
Proof.
  intros HP. induction tr as [|ev tr IH]; simpl; [done|].
  destruct (of_task i ev) eqn:E; simpl; rewrite IH; [done|].
  destruct (P ev) eqn:E'; [|done]. apply HP in E'. congruence.
Qed.

Lemma done_forever s i ls s' :
  tasks s !! i = Some TDone → run s ls = Some s' → tasks s' !! i = Some TDone.
Proof.
  revert s. induction ls as [|l ls IH]; intros s Hd Hr; simpl in Hr.
  - by simplify_eq.
  - destruct (step s l) as [s1|] eqn:Hs; [|done]. eapply IH; [|done].
    clear Hr IH. step_inv Hs; simpl; try done;
      try (destruct (decide (i = i0)) as [->|Hne];
           [congruence|by rewrite list_lookup_insert_ne]).
    rewrite list_lookup_fmap, Hd. done.
Qed.

(** The actions of one goroutine leave the other goroutines, the
    sub-listeners and the shutdown state as they are. *)
Lemma step_task_frame s l s' i :
  step s l = Some s' → label_task l = Some i →
  (∀ j, j ≠ i → tasks s' !! j = tasks s !! j) ∧
  closeCh s' = closeCh s ∧ closed s' = closed s ∧ listeners s' = listeners s.
Proof.
  intros Hs Hl. step_inv Hs; simpl in *; simplify_eq;
    (split; [|done]); intros j Hj; by rewrite list_lookup_insert_ne.
Qed.

(** ** The claims about construction and addresses *)

Lemma demo_running ls :
  is_Some (run demo_listener ls) → running demo_lc demo_addrs (demo_after ls).
Proof.
  intros [s Hs]. exists demo_listener, (trace demo_listener), ls.
  split; [reflexivity|]. unfold demo_after. by rewrite Hs.
Defined.

Lemma running_listeners lc addrs s :
  running lc addrs s →
  ∃ lns, bound_by lc 0 addrs lns ∧ addrs ≠ [] ∧ listeners s = lns.
Proof.
  intros (s0 & log & ls & HL & Hr).
  destruct (Listen_Some _ _ _ _ _ HL) as (lns & Hb & Hne & _ & _ & ->).
  exists lns. repeat split; try done; try apply Hb.
  by rewrite (run_listeners _ _ _ Hr).
Qed.

Lemma bound_by_nonempty lc off addrs lns :
  bound_by lc off addrs lns → addrs ≠ [] → lns ≠ [].
Proof. intros [Hlen _] Hne ->. by destruct addrs. Qed.

(** C9. With no address, [Listen] fails at once: it returns no listener
    and an error, and has neither bound an address nor started a
    goroutine. *)
Theorem Listen_no_addresses (lc : ListenConfig) :
  Listen lc [] = (None, Some (errorString "no addresses to listen on"), []).
Proof. reflexivity. Qed.

(** C10. A listener that [Listen] returned has at least one sub-listener
    in every state it reaches, so [Addr] never indexes out of range. *)
Theorem Addr_in_bounds lc addrs s :
  running lc addrs s →
  listeners s ≠ [] ∧ length (listeners s) = length addrs ∧ is_Some (Addr s).
Proof.
  intros (lns & Hb & Hne & Hl)%running_listeners.
  pose proof (bound_by_nonempty _ _ _ _ Hb Hne) as Hn.
  rewrite Hl. repeat split; [done|apply Hb|].
  unfold Addr. rewrite Hl. destruct lns; [done|]. by eexists.
Qed.

Lemma Addr_in_bounds_witness :
  listeners (demo_after run_closing) ≠ [] ∧
  length (listeners (demo_after run_closing)) = length demo_addrs ∧
  is_Some (Addr (demo_after run_closing)).
Proof.
  apply (Addr_in_bounds demo_lc demo_addrs).
  apply demo_running. vm_compute. by eexists.
Defined.

(** C8. In every state of a listener that [Listen] returned, closed or
    not, [Addrs] is the addresses of the sub-listeners bound for the input
    addresses, position by position, and [Addr] is the first of them. *)
Theorem Addrs_input_order lc addrs s :
  running lc addrs s →
  ∃ lns, bound_by lc 0 addrs lns ∧
    Addrs s = ln_Addr <$> lns ∧
    Addr s = ln_Addr <$> head lns ∧ is_Some (Addr s) ∧
    ∀ t, Addrs (Close t s).1 = Addrs s ∧ Addr (Close t s).1 = Addr s.
Proof.
  intros (lns & Hb & Hne & Hl)%running_listeners.
  pose proof (bound_by_nonempty _ _ _ _ Hb Hne) as Hn.
  exists lns. unfold Addrs, Addr. rewrite Hl.
  split; [done|]. split; [done|]. split; [by destruct lns|].
  split; [by destruct lns; [|eexists]|].
  intros t. destruct (closed s) eqn:E.
  - rewrite Close_again by done. simpl. by rewrite Hl.
  - rewrite Close_first by done. simpl. by rewrite Hl.
Qed.

Lemma Addrs_input_order_witness :
  ∃ lns, bound_by demo_lc 0 demo_addrs lns ∧
    Addrs (demo_after run_held_at_shutdown) =
      ln_Addr <$> lns ∧
    Addr (demo_after run_held_at_shutdown) =
      ln_Addr <$> head lns ∧
    is_Some (Addr (demo_after run_held_at_shutdown)) ∧
    ∀ t,
      Addrs (Close t (demo_after run_held_at_shutdown)).1 =
        Addrs (demo_after run_held_at_shutdown) ∧
      Addr (Close t (demo_after run_held_at_shutdown)).1 =
        Addr (demo_after run_held_at_shutdown).
Proof.
  apply (Addrs_input_order demo_lc demo_addrs).
  apply demo_running. vm_compute. by eexists.
Defined.

Lemma first_error_cons ln lns :
  first_error (ln :: lns) =
  match ln_Close ln with
  | Some e => Some e
  | None => first_error lns
  end.
Proof. unfold first_error. simpl. by destruct (ln_Close ln). Qed.

Lemma first_error_spec lns :
  match first_error lns with
  | Some e =>
      ∃ j ln, lns !! j = Some ln ∧ ln_Close ln = Some e ∧
        ∀ j' ln', j' < j → lns !! j' = Some ln' → ln_Close ln' = None
  | None => ∀ ln, ln ∈ lns → ln_Close ln = None
  end.
Proof.
  induction lns as [|ln lns IH].
  - by intros ? ?%elem_of_nil.
  - rewrite first_error_cons. destruct (ln_Close ln) as [e|] eqn:E.
    + exists 0, ln. split; [done|]. split; [done|]. intros; lia.
    + destruct (first_error lns) as [e|].
      * destruct IH as (j & ln' & ? & ? & Hlt). exists (S j), ln'.
        split; [done|]. split; [done|].
        intros [|j'] ln'' Hj' Hl'; simpl in *; [by simplify_eq|].
        eapply Hlt; [|done]. lia.
      * intros ln' [->|?]%elem_of_cons; [done|by apply IH].
Qed.

Lemma demo_bound : bound_by demo_lc 0 demo_addrs (listeners demo_listener).
Proof.
  split; [reflexivity|].
  intros [|[|i]] a H; simpl in H; [| |done]; injection H as <-;
    eexists; split; reflexivity.
Defined.

Lemma listen_loop_fail lc addr rest mln lerr :
  lc (length (listeners mln)) addr = inl lerr →
  listen_loop lc (addr :: rest) mln =
  inl ((Close 0 (emit mln [EvBind addr false])).1,
       errors_Join [Some lerr; (Close 0 (emit mln [EvBind addr false])).2]).
Proof.
  intros H. cbn [listen_loop]. rewrite H.
  by destruct (Close 0 (emit mln [EvBind addr false])).
Qed.

(** C5, as the code has it.  When the addresses before [bad] bind and
    [bad] does not, [Listen] returns no listener; it has bound the
    addresses in order, stopped at [bad], closed [l.closeCh] and then every
    sub-listener bound so far, in order; its error is the join of the bind
    error and of the first error of these closes, when there is one.  The
    errors of later closes are not in it. *)
Theorem Listen_bind_failure lc pre bad post lns lerr :
  bound_by lc 0 pre lns →
  lc (length pre) bad = inl lerr →
  Listen lc (pre ++ bad :: post) =
    (None, errors_Join [Some lerr; first_error lns],
     ((λ a, EvBind a true) <$> pre) ++ EvBind bad false :: close_seq 0 lns) ∧
  errors_Join [Some lerr; first_error lns] =
    Some (joinError (lerr :: option_list (first_error lns))).
Proof.
  intros Hb Hbad. split; [|by destruct (first_error lns)].
  unfold Listen. destruct (pre ++ bad :: post) as [|a l] eqn:E.
  { by destruct pre. }
  rewrite <- E. clear E.
  rewrite (listen_loop_bound lc pre (bad :: post) lns new_Listener Hb).
  rewrite (listen_loop_fail _ _ _ _ lerr); [|simpl; by rewrite (proj1 Hb)].
  rewrite Close_first by done. simpl.
  unfold close_seq, teardown_seq. by rewrite <- !app_assoc.
Qed.

Lemma Listen_bind_failure_witness :
  Listen demo_lc (demo_addrs ++ "invalid address" :: []) =
    (None,
     errors_Join [Some (OpError "listen" (errorString "missing port in address"));
                  first_error (listeners demo_listener)],
     ((λ a, EvBind a true) <$> demo_addrs) ++
       EvBind "invalid address" false :: close_seq 0 (listeners demo_listener)) ∧
  errors_Join [Some (OpError "listen" (errorString "missing port in address"));
               first_error (listeners demo_listener)] =
    Some (joinError (OpError "listen" (errorString "missing port in address")
                     :: option_list (first_error (listeners demo_listener)))).
Proof.
  apply (Listen_bind_failure demo_lc demo_addrs "invalid address" []
           (listeners demo_listener)).
  - exact demo_bound.
  - reflexivity.
Defined.

(** C5 as stated fails: both sub-listeners fail to close, [EBADF] then
    [EIO]; the error [Listen] returns holds the bind error and [EBADF],
    and [errors.Is] does not find [EIO] in it. *)
Lemma Listen_drops_later_close_errors :
  Listen demo_lc ["127.0.0.1:8080"; "127.0.0.1:8081"; "invalid address"] =
    (None,
     Some (joinError [OpError "listen" (errorString "missing port in address");
                      Errno 9]),
     [EvBind "127.0.0.1:8080" true; EvBind "127.0.0.1:8081" true;
      EvBind "invalid address" false; EvShutdown 0;
      EvBinderClose 0 0 (mkBinder 0 "127.0.0.1:8080" (Some (Errno 9)));
      EvBinderClose 0 1 (mkBinder 1 "127.0.0.1:8081" (Some (Errno 5)));
      EvCloseRet 0 (Some (Errno 9))]) ∧
  errors_Is (joinError [OpError "listen" (errorString "missing port in address");
                        Errno 9]) (Errno 5) = false.
Proof. split; reflexivity. Qed.

(** C6, as the code has it.  The call of [Close] that does the teardown
    closes [l.closeCh] and then every sub-listener, in order, also the
    ones after a sub-listener whose close failed; it returns the close
    error of the first sub-listener, in order, whose close fails, and nil
    when none fails; the errors of the sub-listeners after it are not in
    the result. *)
Theorem Close_returns_first_error t l :
  closed l = false →
  (Close t l).2 = first_error (listeners l) ∧
  match (Close t l).2 with
  | Some e =>
      ∃ j ln, listeners l !! j = Some ln ∧ ln_Close ln = Some e ∧
        ∀ j' ln', j' < j → listeners l !! j' = Some ln' → ln_Close ln' = None
  | None => ∀ ln, ln ∈ listeners l → ln_Close ln = None
  end ∧
  trace (Close t l).1 =
    trace l ++ EvShutdown t :: (EvAcceptClosed <$> recvq l) ++
      imap (EvBinderClose t) (listeners l) ++
      [EvCloseRet t (first_error (listeners l))] ∧
  (∀ j ln, listeners l !! j = Some ln → EvBinderClose t j ln ∈ trace (Close t l).1) ∧
  List.filter is_close_work (trace (Close t l).1) =
    List.filter is_close_work (trace l) ++ close_seq t (listeners l).
Proof.
  intros H. rewrite Close_first by done. simpl. split; [done|].
  split; [apply first_error_spec|]. split; [done|]. split.
  - intros j ln Hj. apply elem_of_app. right. apply elem_of_cons. right.
    apply elem_of_app. right. apply elem_of_app. left.
    by apply (elem_of_lookup_imap_2 (EvBinderClose t)).
  - rewrite !List.filter_app. simpl. rewrite !List.filter_app.
    rewrite filter_AcceptClosed by done. simpl. f_equal.
    unfold close_seq, teardown_seq. simpl. f_equal. f_equal.
    induction (listeners l) as [|ln lns IH] using rev_ind; [done|].
    rewrite imap_app, List.filter_app, IH. simpl. done.
Qed.

Lemma Close_returns_first_error_witness :
  first_error (listeners demo_listener) = Some (Errno 9) ∧
  (Close 0 demo_listener).2 = first_error (listeners demo_listener) ∧
  EvBinderClose 0 1 (mkBinder 1 "127.0.0.1:8081" (Some (Errno 5)))
    ∈ trace (Close 0 demo_listener).1.
Proof.
  split; [reflexivity|].
  destruct (Close_returns_first_error 0 demo_listener eq_refl)
    as (Hres & _ & _ & Hall & _).
  split; [exact Hres|]. apply (Hall 1). reflexivity.
Defined.

(** C6 as stated fails: both sub-listeners fail to close, [Close] returns
    [EBADF], the error of the first, and [errors.Is] does not find [EIO],
    the error of the second, in it. *)
Lemma Close_drops_later_errors :
  ln_Close <$> listeners demo_listener = [Some (Errno 9); Some (Errno 5)] ∧
  (Close 0 demo_listener).2 = Some (Errno 9) ∧
  errors_Is (Errno 9) (Errno 5) = false.
Proof. repeat apply conj; vm_compute; reflexivity. Qed.

(** ** The claims about the goroutines and the shutdown *)

Lemma select_after_shutdown s i ch s' :
  reachable s → closeCh s = true →
  step s (LTaskSelect i ch) = Some s' → ch = SelClosed.
Proof.
  intros Hr Hc Hs. destruct (none_parked_inv s Hr Hc) as [Hq _].
  simpl in Hs. destruct (tasks s !! i) as [[]|]; try done.
  destruct ch as [k| |]; [|done|by rewrite Hc in Hs].
  rewrite Hq in Hs. rewrite bool_decide_eq_false_2 in Hs; [done|].
  apply not_elem_of_nil.
Qed.

Lemma accept_select_after_shutdown s k ch s' :
  reachable s → closeCh s = true →
  step s (LAccept k ch) = Some s' → ch = SelClosed.
Proof.
  intros Hr Hc Hs. destruct (none_parked_inv s Hr Hc) as [_ Hp].
  simpl in Hs. destruct (bool_decide (k ∈ recvq s)); [done|].
  destruct ch as [i| |]; [|done|by rewrite Hc in Hs].
  destruct (tasks s !! i) as [pc|] eqn:E; [|done].
  apply Hp in E. by destruct pc.
Qed.

Lemma task_exit_closes s i pc p c :
  closeCh s = true → tasks s !! i = Some pc → is_parked pc = false →
  holds pc = Some p → conn p = Some c →
  ∃ s', run s (task_exit pc i) = Some s' ∧
        trace s' = trace s ++ [EvConnClose i c] ∧ tasks s' !! i = Some TDone.
Proof.
  intros Hc Ht Hp Hh Hcn. pose proof (lookup_lt_Some _ _ _ Ht) as Hlt.
  destruct pc; simplify_eq/=; rewrite Ht.
  - rewrite Hc. simpl. rewrite list_lookup_insert_eq by done. rewrite Hcn.
    eexists. split; [done|]. simpl. split; [done|].
    rewrite list_lookup_insert_eq; [done|]. by rewrite length_insert.
  - rewrite Hcn. eexists. split; [done|]. simpl. split; [done|].
    by rewrite list_lookup_insert_eq.
Qed.

(** C1. In every state of a listener that [Listen] returned: no hand-off
    to a caller of [Accept] is among the events after the closing of
    [l.closeCh]; every connection a goroutine accepted is held by it, was
    handed off, or was closed by it; and once [l.closeCh] is closed, a
    connection a goroutine holds cannot be handed off (its select and the
    select of [Accept] can only take the closeCh case), and the goroutine,
    when it runs, closes the connection and returns. *)
Theorem no_delivery_after_shutdown lc addrs s :
  running lc addrs s →
  (∀ i k p, EvDeliver i k p ∉ after_shutdown (trace s)) ∧
  (∀ i c, count (is_obtained i c) (trace s) =
          count (is_delivered i c) (trace s) +
          count (is_conn_closed i c) (trace s) + held s i c) ∧
  (closeCh s = true →
   ∀ i pc p c, tasks s !! i = Some pc → holds pc = Some p → conn p = Some c →
     (∀ ch s', step s (LTaskSelect i ch) = Some s' → ch = SelClosed) ∧
     (∀ k ch s', step s (LAccept k ch) = Some s' → ch = SelClosed) ∧
     ∃ s', run s (task_exit pc i) = Some s' ∧
           trace s' = trace s ++ [EvConnClose i c] ∧
           tasks s' !! i = Some TDone).
Proof.
  intros Hr%running_reachable. split; [|split].
  - intros i k p Hin.
    pose proof (deliver_before_shutdown s Hr) as H.
    rewrite Forall_forall in H. by apply H in Hin.
  - intros i c. by apply conservation.
  - intros Hc i pc p c Ht Hh Hcn. split; [|split].
    + intros ch s'. by apply select_after_shutdown.
    + intros k ch s'. by apply accept_select_after_shutdown.
    + eapply task_exit_closes; try done.
      destruct (none_parked_inv s Hr Hc) as [_ Hp]. by eapply Hp.
Qed.

Lemma no_delivery_after_shutdown_witness :
  running demo_lc demo_addrs (demo_after run_held_at_shutdown) ∧
  ∃ s', run (demo_after run_held_at_shutdown)
          [LTaskSelect 0 SelClosed; LTaskCloseConn 0] = Some s' ∧
        trace s' =
          trace (demo_after run_held_at_shutdown) ++ [EvConnClose 0 7] ∧
        tasks s' !! 0 = Some TDone.
Proof.
  assert (running demo_lc demo_addrs (demo_after run_held_at_shutdown))
    as Hrun by (apply demo_running; vm_compute; by eexists).
  split; [exact Hrun|].
  destruct (no_delivery_after_shutdown demo_lc demo_addrs _ Hrun) as (_ & _ & H).
  apply (H eq_refl 0 (TSelect (pair_of (AcceptConn 7))) (pair_of (AcceptConn 7)) 7);
    reflexivity.
Defined.



Lemma filter_close_work_nil tr :
  List.filter is_close_event tr = [] → List.filter is_close_work tr = [].
Proof.
  induction tr as [|ev tr IH]; simpl; [done|].
  destruct ev; simpl; try done; by apply IH.
Qed.

Lemma teardown_seq_prefix t j lns :
  teardown_seq t (take j lns) `prefix_of` teardown_seq t lns.
Proof.
  rewrite <- (take_drop j lns) at 2. unfold teardown_seq.
  rewrite imap_app. eexists. by rewrite app_comm_cons.
Qed.

Lemma wake_lookup_parked (ts : list TaskPC) i p :
  ts !! i = Some (TParked p) → (wake <$> ts) !! i = Some (TClosing p).
Proof. intros H. by rewrite list_lookup_fmap, H. Qed.

Lemma wake_lookup_other (ts : list TaskPC) i pc :
  ts !! i = Some pc → is_parked pc = false → (wake <$> ts) !! i = Some pc.
Proof. intros H Hp. rewrite list_lookup_fmap, H. by destruct pc. Qed.

(** C2. In every state of a listener that [Listen] returned.  Whatever
    the interleaving, the teardown events of the history and the return
    that follows them are a prefix of one sequence: [l.closeCh] closed,
    then each sub-listener closed in order, then the return of the first
    close error, all by one caller; while [l.closed] is false the history
    has no event of [Close]; [close(l.closeCh)] is never run on a closed
    channel.  A call that finds [l.closed] false does this teardown and
    returns the first close error (nil when there is none); its
    [close(l.closeCh)] reaches everybody: every caller blocked in [Accept]
    returns [net.ErrClosed], every goroutine blocked in its select leaves
    it by the closeCh case with the pair it holds, the other goroutines
    are where they were, and nobody is blocked afterwards.  A call that
    finds [l.closed] true returns [net.ErrClosed] and changes nothing
    else; [l.closed] stays true. *)
Theorem Close_exactly_once lc addrs s :
  running lc addrs s →
  (∃ t, List.filter is_close_work (trace s) `prefix_of` close_seq t (listeners s)) ∧
  (closed s = false → List.filter is_close_event (trace s) = []) ∧
  (∀ t, closers s !! t = Some CAt99 → closeCh s = false) ∧
  (closed s = false → ∀ t,
     (Close t s).2 = first_error (listeners s) ∧
     trace (Close t s).1 =
       trace s ++ EvShutdown t :: (EvAcceptClosed <$> recvq s) ++
         imap (EvBinderClose t) (listeners s) ++
         [EvCloseRet t (first_error (listeners s))] ∧
     closed (Close t s).1 = true ∧ closeCh (Close t s).1 = true ∧
     run s (close_labels t (length (listeners s))) = Some (Close t s).1) ∧
  (closed s = true → ∀ t,
     Close t s = (emit s [EvCloseClosed t], Some ErrClosed) ∧
     (closers s !! t = None →
      step s (LCloseCAS t) = Some (emit s [EvCloseClosed t])) ∧
     ∀ ls s', run s ls = Some s' → closed s' = true) ∧
  (closed s = false → ∀ t,
     recvq (Close t s).1 = [] ∧ listeners (Close t s).1 = listeners s ∧
     (∀ i p, tasks s !! i = Some (TParked p) →
             tasks (Close t s).1 !! i = Some (TClosing p)) ∧
     (∀ i pc, tasks s !! i = Some pc → is_parked pc = false →
              tasks (Close t s).1 !! i = Some pc)) ∧
  (∀ t s', step s (LCloseCh t) = Some s' →
     closeCh s' = true ∧ recvq s' = [] ∧
     trace s' = trace s ++ EvShutdown t :: (EvAcceptClosed <$> recvq s) ∧
     (∀ i p, tasks s !! i = Some (TParked p) → tasks s' !! i = Some (TClosing p)) ∧
     (∀ i pc, tasks s !! i = Some pc → is_parked pc = false →
              tasks s' !! i = Some pc)) ∧
  (closeCh s = true →
     recvq s = [] ∧ ∀ i pc, tasks s !! i = Some pc → is_parked pc = false).
Proof.
  intros Hr%running_reachable.
  pose proof (teardown_phase_inv s Hr) as Hph.
  split; [|split; [|split; [|split; [|split; [|split; [|split]]]]]].
  - destruct Hph as [(Hcl & Hch & Hcs & Htr)|[(t0 & Hcl & Hch & Hcs & Htr)|
      [(t0 & j0 & Hcl & Hch & Hj & Hcs & Htr)|(t0 & Hcl & Hch & Hcs & Htr)]]].
    + exists 0. rewrite filter_close_work_nil by done. apply prefix_nil.
    + exists t0. rewrite Htr. apply prefix_nil.
    + exists t0. rewrite Htr. unfold close_seq.
      etrans; [apply teardown_seq_prefix|]. by apply prefix_app_r.
    + exists t0. by rewrite Htr.
  - intros Hf.
    destruct Hph as [(Hcl & Hch & Hcs & Htr)|[(t0 & Hcl & Hch & Hcs & Htr)|
      [(t0 & j0 & Hcl & Hch & Hj & Hcs & Htr)|(t0 & Hcl & Hch & Hcs & Htr)]]];
      [done|congruence..].
  - intros t Ht.
    destruct Hph as [(Hcl & Hch & Hcs & Htr)|[(t0 & Hcl & Hch & Hcs & Htr)|
      [(t0 & j0 & Hcl & Hch & Hj & Hcs & Htr)|(t0 & Hcl & Hch & Hcs & Htr)]]];
      try done; rewrite Hcs in Ht.
    + by apply lookup_singleton_Some in Ht as [_ ?].
    + by rewrite lookup_empty in Ht.
  - intros Hf t.
    destruct Hph as [(Hcl & Hch & Hcs & Htr)|[(t0 & Hcl & Hch & Hcs & Htr)|
      [(t0 & j0 & Hcl & Hch & Hj & Hcs & Htr)|(t0 & Hcl & Hch & Hcs & Htr)]]];
      [|congruence..].
    assert (run s (close_labels t (length (listeners s))) = Some (Close t s).1) as Hrun.
    { apply Close_run; try done. rewrite Hcs. apply lookup_empty. }
    rewrite Hrun. rewrite Close_first by done. done.
  - intros Hcl t. split; [by apply Close_again|]. split.
    + intros Ht. simpl. by rewrite Ht, Hcl.
    + intros ls s' Hrun. by eapply run_closed.
  - intros Hf t. rewrite Close_first by done. simpl.
    split; [done|]. split; [done|]. split.
    + intros i p. apply wake_lookup_parked.
    + intros i pc. apply wake_lookup_other.
  - intros t s' Hs. simpl in Hs.
    destruct (closers s !! t) as [[]|]; try done.
    destruct (closeCh s); [done|]. injection Hs as <-. simpl.
    split; [done|]. split; [done|]. split; [done|]. split.
    + intros i p. apply wake_lookup_parked.
    + intros i pc. apply wake_lookup_other.
  - intros Hc. by apply (none_parked_inv s Hr).
Qed.

Lemma Close_exactly_once_witness :
  running demo_lc demo_addrs (demo_after run_parked) ∧
  tasks (demo_after run_parked) !! 0 = Some (TParked (pair_of (AcceptConn 7))) ∧
  tasks (Close 0 (demo_after run_parked)).1 !! 0 =
    Some (TClosing (pair_of (AcceptConn 7))) ∧
  (Close 0 (demo_after run_parked)).2 = first_error (listeners (demo_after run_parked)).
Proof.
  assert (running demo_lc demo_addrs (demo_after run_parked))
    as Hrun by (apply demo_running; vm_compute; by eexists).
  split; [exact Hrun|]. split; [reflexivity|].
  destruct (Close_exactly_once demo_lc demo_addrs _ Hrun)
    as (_ & _ & _ & Hfirst & _ & Hwake & _).
  split.
  - destruct (Hwake eq_refl 0) as (_ & _ & Hparked & _).
    apply (Hparked 0). reflexivity.
  - apply (Hfirst eq_refl 0).
Defined.

(** ** The claims about accept errors *)

Lemma error_delivery_at_most_once s i :
  reachable s → count (is_error_delivery i) (trace s) ≤ 1.
Proof.
  intros Hr. pose proof (task_hist_inv s i Hr) as H.
  rewrite <- (count_task_events _ i).
  2:{ intros [] Hev; simpl in *; try done. by apply andb_true_iff in Hev as [? _]. }
  destruct (tasks s !! i) as [[]|]; simpl in H.
  - rewrite (rounds_error_delivery i _ _ H). lia.
  - destruct H as (h0 & r & Hh & -> & ->).
    rewrite count_app, (rounds_error_delivery i) by done. simpl. lia.
  - destruct H as (h0 & r & Hh & -> & ->).
    rewrite count_app, (rounds_error_delivery i) by done. simpl. lia.
  - destruct H as (h0 & r & k & Hh & -> & ->).
    rewrite count_app, (rounds_error_delivery i) by done. simpl.
    destruct (_ && _); lia.
  - destruct H as (_ & h0 & r & Hh & -> & ->).
    rewrite count_app, (rounds_error_delivery i) by done. simpl. lia.
  - destruct H as (h0 & Hh & [(e & k & ->)|[(_ & c & ->)|(_ & e & ->)]]);
      rewrite count_app, (rounds_error_delivery i) by done; simpl;
      try destruct (_ && _); lia.
  - rewrite H. simpl. lia.
Qed.

Lemma fail_in_tail i h0 r e tl :
  rounds i h0 →
  EvBinderAccept i (AcceptFail e) ∈ h0 ++ EvBinderAccept i r :: tl →
  (∀ ev, ev ∈ tl → ∀ i' e', ev ≠ EvBinderAccept i' (AcceptFail e')) →
  r = AcceptFail e.
Proof.
  intros Hh Hin Htl. apply elem_of_app in Hin as [Hin|Hin].
  - by apply (rounds_no_fail _ _ _ _ Hh) in Hin.
  - apply elem_of_cons in Hin as [?|Hin]; [by simplify_eq|].
    by apply Htl with (i' := i) (e' := e) in Hin.
Qed.

(** The history of a goroutine whose accept failed with [e]: completed
    iterations, the failing accept, and then nothing, or the one hand-off
    of [(nil, e)]. *)
Lemma failed_task s i e :
  reachable s →
  EvBinderAccept i (AcceptFail e) ∈ trace s →
  ∃ h0, rounds i h0 ∧
    ((task_events i (trace s) = h0 ++ [EvBinderAccept i (AcceptFail e)] ∧
      ∃ pc, tasks s !! i = Some pc ∧
            (holds pc = Some (pair_of (AcceptFail e)) ∨
             (pc = TDone ∧ closeCh s = true))) ∨
     (∃ k, task_events i (trace s) =
             h0 ++ [EvBinderAccept i (AcceptFail e);
                    EvDeliver i k (pair_of (AcceptFail e))] ∧
           (tasks s !! i = Some (TSent (pair_of (AcceptFail e))) ∨
            tasks s !! i = Some TDone))).
Proof.
  intros Hr Hin. pose proof (task_hist_inv s i Hr) as H.
  assert (EvBinderAccept i (AcceptFail e) ∈ task_events i (trace s)) as Hin'.
  { apply elem_of_task_events. split; [done|]. simpl. by apply bool_decide_eq_true_2. }
  clear Hin.
  assert (∀ ev : Event, ev ∈ [] → ∀ i' e', ev ≠ EvBinderAccept i' (AcceptFail e')) as Hnil.
  { by intros ev ?%elem_of_nil. }
  assert (∀ k p c ev, ev ∈ [EvDeliver i k p] ∨ ev ∈ [EvConnClose i c] →
            ∀ i' e', ev ≠ EvBinderAccept i' (AcceptFail e')) as Hone.
  { intros k p c ev [->%list_elem_of_singleton| ->%list_elem_of_singleton]; done. }
  destruct (tasks s !! i) as [pc|] eqn:Ht; simpl in H;
    [|rewrite H in Hin'; by apply elem_of_nil in Hin'].
  destruct pc; simpl in H.
  - by apply (rounds_no_fail _ _ _ _ H) in Hin'.
  - destruct H as (h0 & r & Hh & Heq & ->). rewrite Heq in Hin' |- *.
    apply fail_in_tail in Hin' as ->; [|done..].
    exists h0. split; [done|]. left. split; [done|]. eexists. split; [done|]. by left.
  - destruct H as (h0 & r & Hh & Heq & ->). rewrite Heq in Hin' |- *.
    apply fail_in_tail in Hin' as ->; [|done..].
    exists h0. split; [done|]. left. split; [done|]. eexists. split; [done|]. by left.
  - destruct H as (h0 & r & k & Hh & Heq & ->). rewrite Heq in Hin' |- *.
    apply fail_in_tail in Hin' as ->;
      [|done|intros ev ?; apply (Hone k (pair_of r) 0 ev); by left].
    exists h0. split; [done|]. right. exists k. split; [done|]. by left.
  - destruct H as (Hc & h0 & r & Hh & Heq & ->). rewrite Heq in Hin' |- *.
    apply fail_in_tail in Hin' as ->; [|done..].
    exists h0. split; [done|]. left. split; [done|]. eexists. split; [done|]. by left.
  - destruct H as (h0 & Hh & [(e' & k & Heq)|[(Hc & c & Heq)|(Hc & e' & Heq)]]);
      rewrite Heq in Hin' |- *.
    + apply fail_in_tail in Hin';
        [|done|intros ev ?; apply (Hone k (pair_of (AcceptFail e')) 0 ev); by left].
      simplify_eq. exists h0. split; [done|]. right. exists k. split; [done|]. by right.
    + apply fail_in_tail in Hin';
        [done|done|intros ev ?; apply (Hone 0 (pair_of (AcceptConn c)) c ev); by right].
    + apply fail_in_tail in Hin'; [|done..]. simplify_eq.
      exists h0. split; [done|]. left. split; [done|]. eexists. split; [done|].
      by right.
Qed.

(** C4, as the code has it.  When [ln.Accept()] of sub-listener [i] has
    returned the error [e]: the goroutine does not call [ln.Accept()]
    again, and after the failing accept its history holds nothing, or the
    one hand-off of [(nil, e)]; nothing while the pair is pending and when
    the goroutine returned through the closeCh case, the hand-off when a
    caller of [Accept] took the pair.  A caller of [Accept] gets at most
    one error from the sub-listener.  After the hand-off the goroutine
    returns, and a goroutine that returned stays so.  The actions of the
    goroutine leave the other goroutines, the sub-listeners and the
    shutdown state unchanged. *)
Theorem accept_error_forwarded_at_most_once lc addrs s i e :
  running lc addrs s →
  EvBinderAccept i (AcceptFail e) ∈ trace s →
  (∃ h0, rounds i h0 ∧
     ((task_events i (trace s) = h0 ++ [EvBinderAccept i (AcceptFail e)] ∧
       ∃ pc, tasks s !! i = Some pc ∧
             (holds pc = Some (pair_of (AcceptFail e)) ∨
              (pc = TDone ∧ closeCh s = true))) ∨
      (∃ k, task_events i (trace s) =
              h0 ++ [EvBinderAccept i (AcceptFail e);
                     EvDeliver i k (pair_of (AcceptFail e))] ∧
            (tasks s !! i = Some (TSent (pair_of (AcceptFail e))) ∨
             tasks s !! i = Some TDone)))) ∧
  count (is_error_delivery i) (trace s) ≤ 1 ∧
  (tasks s !! i = Some (TSent (pair_of (AcceptFail e))) →
   step s (LTaskAfterSend i) = Some (set_task s i TDone)) ∧
  (tasks s !! i = Some TDone →
   ∀ ls s', run s ls = Some s' → tasks s' !! i = Some TDone) ∧
  (∀ l s', step s l = Some s' → label_task l = Some i →
     (∀ j, j ≠ i → tasks s' !! j = tasks s !! j) ∧
     closeCh s' = closeCh s ∧ closed s' = closed s ∧ listeners s' = listeners s).
Proof.
  intros Hr%running_reachable Hin. split; [|split; [|split; [|split]]].
  - by apply failed_task.
  - by apply error_delivery_at_most_once.
  - intros Ht. simpl. by rewrite Ht.
  - intros Ht ls s'. by apply done_forever.
  - intros l s'. apply step_task_frame.
Qed.

Lemma accept_error_forwarded_at_most_once_witness :
  running demo_lc demo_addrs (demo_after run_error_forwarded) ∧
  count (is_error_delivery 0)
    (trace (demo_after run_error_forwarded)) ≤ 1.
Proof.
  assert (running demo_lc demo_addrs (demo_after run_error_forwarded))
    as Hrun by (apply demo_running; vm_compute; by eexists).
  split; [exact Hrun|].
  apply (accept_error_forwarded_at_most_once demo_lc demo_addrs _ 0
           (OpError "accept" ErrClosed) Hrun).
  vm_compute. do 4 right. left.
Defined.

(** C4 as stated fails: the listener is closed, [ln.Accept()] of the first
    sub-listener then fails, the goroutine takes the closeCh case and
    returns: the error was handed to nobody. *)
Lemma accept_error_dropped_at_shutdown :
  (Listen demo_lc demo_addrs).1 = (Some demo_listener, None) ∧
  run demo_listener run_error_after_close = Some (demo_after run_error_after_close) ∧
  tasks (demo_after run_error_after_close) = [TDone; TAccept] ∧
  trace (demo_after run_error_after_close) =
    [EvBind "127.0.0.1:8080" true; EvBind "127.0.0.1:8081" true;
     EvSpawn 0; EvSpawn 1; EvShutdown 0;
     EvBinderClose 0 0 (mkBinder 0 "127.0.0.1:8080" (Some (Errno 9)));
     EvBinderClose 0 1 (mkBinder 1 "127.0.0.1:8081" (Some (Errno 5)));
     EvCloseRet 0 (Some (Errno 9));
     EvBinderAccept 0 (AcceptFail (OpError "accept" ErrClosed))] ∧
  count (is_error_delivery 0)
    (trace (demo_after run_error_after_close)) = 0.
Proof. repeat apply conj; vm_compute; reflexivity. Qed.

Lemma deliver_in_tail i h0 r tl i' k p :
  rounds i h0 →
  EvDeliver i' k p ∈ h0 ++ EvBinderAccept i r :: tl →
  (∀ ev, ev ∈ tl → ev = EvDeliver i' k p → i' = i ∧ p = pair_of r) →
  ∃ r', p = pair_of r' ∧ EvBinderAccept i' r' ∈ h0 ++ EvBinderAccept i r :: tl.
Proof.
  intros Hh Hin Htl. apply elem_of_app in Hin as [Hin|Hin].
  - destruct (rounds_deliver _ _ _ _ _ Hh Hin) as (c & -> & ?).
    exists (AcceptConn c). split; [done|]. apply elem_of_app. by left.
  - apply elem_of_cons in Hin as [?|Hin]; [done|].
    destruct (Htl _ Hin eq_refl) as [-> ->]. exists r. split; [done|].
    apply elem_of_app. right. by left.
Qed.

(** A pair handed to a caller of [Accept] is what [ln.Accept()] of that
    sub-listener returned. *)
Lemma deliver_provenance s i k p :
  reachable s → EvDeliver i k p ∈ trace s →
  ∃ r, p = pair_of r ∧ EvBinderAccept i r ∈ trace s.
Proof.
  intros Hr Hin. pose proof (task_hist_inv s i Hr) as H.
  assert (EvDeliver i k p ∈ task_events i (trace s)) as Hin'.
  { apply elem_of_task_events. split; [done|]. simpl. by apply bool_decide_eq_true_2. }
  clear Hin.
  cut (∃ r, p = pair_of r ∧ EvBinderAccept i r ∈ task_events i (trace s)).
  { intros (r & ? & [? _]%elem_of_task_events). by exists r. }
  destruct (tasks s !! i) as [pc|] eqn:Ht; simpl in H;
    [|rewrite H in Hin'; by apply elem_of_nil in Hin'].
  destruct pc; simpl in H.
  - destruct (rounds_deliver _ _ _ _ _ H Hin') as (c & -> & ?). by exists (AcceptConn c).
  - destruct H as (h0 & r & Hh & Heq & ->). rewrite Heq in Hin' |- *.
    eapply deliver_in_tail; [done..|]. by intros ev ?%elem_of_nil.
  - destruct H as (h0 & r & Hh & Heq & ->). rewrite Heq in Hin' |- *.
    eapply deliver_in_tail; [done..|]. by intros ev ?%elem_of_nil.
  - destruct H as (h0 & r & k' & Hh & Heq & ->). rewrite Heq in Hin' |- *.
    eapply deliver_in_tail; [done..|].
    intros ev ->%list_elem_of_singleton ?. by simplify_eq.
  - destruct H as (_ & h0 & r & Hh & Heq & ->). rewrite Heq in Hin' |- *.
    eapply deliver_in_tail; [done..|]. by intros ev ?%elem_of_nil.
  - destruct H as (h0 & Hh & [(e' & k' & Heq)|[(Hc & c & Heq)|(Hc & e' & Heq)]]);
      rewrite Heq in Hin' |- *; (eapply deliver_in_tail; [done..|]).
    + intros ev ->%list_elem_of_singleton ?. by simplify_eq.
    + intros ev ->%list_elem_of_singleton ?. by simplify_eq.
    + by intros ev ?%elem_of_nil.
Qed.

Lemma accept_closed_in_after s k :
  reachable s → EvAcceptClosed k ∈ trace s → EvAcceptClosed k ∈ after_shutdown (trace s).
Proof.
  intros Hr Hin. pose proof (accept_closed_not_before s Hr) as Hb.
  rewrite Forall_forall in Hb.
  destruct (existsb is_shutdown (trace s)) eqn:E.
  - destruct (shutdown_split _ E) as [t Ht]. rewrite Ht in Hin.
    apply elem_of_app in Hin as [Hin|Hin]; [by apply Hb in Hin|].
    by apply elem_of_cons in Hin as [?|Hin].
  - rewrite before_shutdown_none in Hb by done. by apply Hb in Hin.
Qed.

Lemma error_eqb_ErrClosed e : error_eqb e ErrClosed = true ↔ e = ErrClosed.
Proof. by destruct e. Qed.

(** C7.  [Accept] returns the value [net.ErrClosed] itself for the
    shutdown and the error of the sub-listener, unchanged, for a failed
    accept.  The sub-listeners are the TCP listeners [lc.Listen] returns,
    whose [Accept] wraps every error in a [*net.OpError] and so never
    returns the bare value [net.ErrClosed]: that is the hypothesis.  Then
    an error returned by [Accept] is [net.ErrClosed], by [==], exactly
    when it was returned after the closing of [l.closeCh], and then it
    comes with no connection from the closeCh case; any other error is
    the accept error of one sub-listener, returned while [l.closeCh] was
    open.  Once [l.closed] is set, [Close] returns [net.ErrClosed]. *)
Theorem sentinel_identifies_shutdown lc addrs s :
  running lc addrs s →
  (∀ i e, EvBinderAccept i (AcceptFail e) ∈ trace s → e ≠ ErrClosed) →
  (∀ ev k p e, ev ∈ trace s → accept_result ev = Some (k, p) → err p = Some e →
     (e = ErrClosed ↔ ev ∈ after_shutdown (trace s)) ∧
     (error_eqb e ErrClosed = true ↔ ev ∈ after_shutdown (trace s)) ∧
     (e = ErrClosed → ev = EvAcceptClosed k) ∧
     (e ≠ ErrClosed →
      ∃ i, ev = EvDeliver i k p ∧ EvBinderAccept i (AcceptFail e) ∈ trace s ∧
           ev ∉ after_shutdown (trace s))) ∧
  (closed s = true → ∀ t, (Close t s).2 = Some ErrClosed).
Proof.
  intros Hr%running_reachable Hb. split; [|intros Hc t; by rewrite Close_again].
  intros ev k p e Hin Hres He.
  pose proof (deliver_before_shutdown s Hr) as Hd. rewrite Forall_forall in Hd.
  rewrite error_eqb_ErrClosed.
  destruct ev; simplify_eq/=.
  - destruct (deliver_provenance _ _ _ _ Hr Hin) as (r & -> & Hacc).
    destruct r; simplify_eq/=. pose proof (Hb _ _ Hacc) as Hne.
    assert (EvDeliver i k {| conn := None; err := Some e |}
              ∉ after_shutdown (trace s)) as Hnot by (by intros ?%Hd).
    split; [|split; [|split]]; [by split|by split|done|].
    intros _. by eexists.
  - assert (EvAcceptClosed k ∈ after_shutdown (trace s)) as Hafter
      by (by apply accept_closed_in_after).
    split; [|split; [|split]]; [by split|by split|done|done].
Qed.

Lemma sentinel_identifies_shutdown_witness :
  running demo_lc demo_addrs (demo_after run_error_then_closed) ∧
  (∀ i e,
     EvBinderAccept i (AcceptFail e) ∈ trace (demo_after run_error_then_closed) →
     e ≠ ErrClosed) ∧
  (ErrClosed = ErrClosed ↔
   EvAcceptClosed 6 ∈
     after_shutdown (trace (demo_after run_error_then_closed))).
Proof.
  assert (running demo_lc demo_addrs (demo_after run_error_then_closed))
    as Hrun by (apply demo_running; vm_compute; by eexists).
  assert (∀ i e,
     EvBinderAccept i (AcceptFail e) ∈ trace (demo_after run_error_then_closed) →
     e ≠ ErrClosed) as Hb.
  { intros i e Hin. vm_compute in Hin.
    repeat (apply elem_of_cons in Hin as [Hin|Hin]; [by simplify_eq|]).
    by apply elem_of_nil in Hin. }
  split; [exact Hrun|]. split; [exact Hb|].
  destruct (sentinel_identifies_shutdown demo_lc demo_addrs _ Hrun Hb) as [H _].
  apply (H (EvAcceptClosed 6) 6 {| conn := None; err := Some ErrClosed |} ErrClosed);
    [|reflexivity..].
  vm_compute. do 7 right. left.
Defined.

(** The identity of the error tells the two cases apart, [errors.Is]
    does not: the first sub-listener is closed behind the listener's back,
    its [ln.Accept()] fails with an error that wraps [net.ErrClosed], and a
    caller of [Accept] gets this error while the listener is open;
    [errors.Is(err, net.ErrClosed)] answers for it as it does for the
    sentinel, [err == net.ErrClosed] does not. *)
Lemma binder_error_matches_sentinel :
  (Listen demo_lc demo_addrs).1 = (Some demo_listener, None) ∧
  run demo_listener run_error_forwarded = Some (demo_after run_error_forwarded) ∧
  closed (demo_after run_error_forwarded) = false ∧
  closeCh (demo_after run_error_forwarded) = false ∧
  trace (demo_after run_error_forwarded) =
    [EvBind "127.0.0.1:8080" true; EvBind "127.0.0.1:8081" true;
     EvSpawn 0; EvSpawn 1;
     EvBinderAccept 0 (AcceptFail (OpError "accept" ErrClosed));
     EvDeliver 0 5 {| conn := None; err := Some (OpError "accept" ErrClosed) |}] ∧
  errors_Is (OpError "accept" ErrClosed) ErrClosed = true ∧
  errors_Is ErrClosed ErrClosed = true ∧
  error_eqb (OpError "accept" ErrClosed) ErrClosed = false.
Proof. repeat apply conj; vm_compute; reflexivity. Qed.

(** ** The scenarios of [listener_test.go] *)

(** [TestListen], invalid address: the two sub-listeners bound before it
    are closed. *)
Example test_Listen_invalid_address :
  Listen test_lc ["127.0.0.1:4001"; "127.0.0.1:4002"; "invalid address"] =
  (None,
   Some (joinError [OpError "listen" (errorString "missing port in address")]),
   [EvBind "127.0.0.1:4001" true; EvBind "127.0.0.1:4002" true;
    EvBind "invalid address" false; EvShutdown 0;
    EvBinderClose 0 0 (mkBinder 0 "127.0.0.1:4001" None);
    EvBinderClose 0 1 (mkBinder 1 "127.0.0.1:4002" None);
    EvCloseRet 0 None]).
Proof. vm_compute. reflexivity. Qed.

(** [TestListener_Addr] and [TestListen_Addrs]. *)
Example test_Addr_Addrs :
  Addr (test_listener test_addrs) = Some "127.0.0.1:4001" ∧
  Addrs (test_listener test_addrs) = test_addrs.
Proof. split; vm_compute; reflexivity. Qed.

(** [TestListener_Close], close on close on close. *)
Example test_Close_three_times :
  (Close 0 (test_listener test_addrs)).2 = None ∧
  (Close 0 (Close 0 (test_listener test_addrs)).1).2 = Some ErrClosed ∧
  (Close 0 (Close 0 (Close 0 (test_listener test_addrs)).1).1).2 = Some ErrClosed.
Proof. repeat apply conj; vm_compute; reflexivity. Qed.

(** [TestListener_Accept], after close: connections are pending on the
    sub-listeners, the listener is closed, and [Accept] returns
    [net.ErrClosed]. *)
Example test_Accept_after_close :
  trace <$> run (test_listener ["127.0.0.1:4001"])
              (close_labels 0 1 ++
               [LBinderAccept 0 (AcceptConn 1); LAccept 1 SelClosed;
                LTaskSelect 0 SelClosed; LTaskCloseConn 0]) =
  Some [EvBind "127.0.0.1:4001" true; EvSpawn 0; EvShutdown 0;
        EvBinderClose 0 0 (mkBinder 0 "127.0.0.1:4001" None);
        EvCloseRet 0 None; EvBinderAccept 0 (AcceptConn 1);
        EvAcceptClosed 1; EvConnClose 0 1].
Proof. vm_compute. reflexivity. Qed.

(** [TestListener_Accept], remove sub-listener on accept error: a
    connection is accepted, the sub-listener is closed behind the
    listener's back, [Accept] returns its error, and the next call of
    [Accept] blocks. *)
Example test_accept_error_then_blocked :
  (λ s, (tasks s, recvq s, closeCh s, trace s)) <$>
    run (test_listener ["127.0.0.1:4001"])
      [LBinderAccept 0 (AcceptConn 1); LTaskSelect 0 SelPark;
       LAccept 1 (SelComm 0); LTaskAfterSend 0;
       LBinderAccept 0 (AcceptFail (OpError "accept" ErrClosed));
       LTaskSelect 0 SelPark; LAccept 1 (SelComm 0); LTaskAfterSend 0;
       LAccept 1 SelPark] =
  Some ([TDone], [1], false,
        [EvBind "127.0.0.1:4001" true; EvSpawn 0;
         EvBinderAccept 0 (AcceptConn 1);
         EvDeliver 0 1 {| conn := Some 1; err := None |};
         EvBinderAccept 0 (AcceptFail (OpError "accept" ErrClosed));
         EvDeliver 0 1 {| conn := None; err := Some (OpError "accept" ErrClosed) |}]).
Proof. vm_compute. reflexivity. Qed.

(** * Further properties *)

(** ** Errors *)

Lemma error_eqb_refl : ∀ e, error_eqb e e = true.
Proof.
  fix IH 1. intros [s| |n|op e|l]; simpl.
  - by apply bool_decide_eq_true_2.
  - done.
  - by apply bool_decide_eq_true_2.
  - rewrite bool_decide_eq_true_2 by done. apply IH.
  - revert l. fix IHl 1. intros [|x l]; [done|].
    rewrite (IH x). apply (IHl l).
Qed.

Lemma errors_Is_refl e : errors_Is e e = true.
Proof. destruct e; cbn [errors_Is]; by rewrite error_eqb_refl. Qed.

Lemma errors_Is_join l e : e ∈ l → errors_Is (joinError l) e = true.
Proof.
  intros Hin. cbn [errors_Is]. apply orb_true_iff. right.
  induction Hin as [x l|x y l _ IH].
  - by rewrite errors_Is_refl.
  - rewrite IH. apply orb_true_r.
Qed.

Lemma errors_Join_Is errs e :
  Some e ∈ errs → ∃ r, errors_Join errs = Some r ∧ errors_Is r e = true.
Proof.
  intros Hin. unfold errors_Join.
  assert (e ∈ omap id errs) as He.
  { apply list_elem_of_omap. by exists (Some e). }
  destruct (omap id errs) as [|x l] eqn:E; [by apply elem_of_nil in He|].
  eexists. split; [done|]. by apply errors_Is_join.
Qed.

Lemma errors_Join_None errs :
  errors_Join errs = None ↔ ∀ o, o ∈ errs → o = None.
Proof.
  unfold errors_Join. split.
  - intros H [e|] Hin; [|done].
    assert (e ∈ omap id errs) as He.
    { apply list_elem_of_omap. by exists (Some e). }
    destruct (omap id errs); [by apply elem_of_nil in He|done].
  - intros H. destruct (omap id errs) as [|x l] eqn:E; [done|].
    assert (x ∈ omap id errs) as He by (rewrite E; left).
    apply list_elem_of_omap in He as (o & Hin & Ho).
    rewrite (H o Hin) in Ho. done.
Qed.

(** ** [control] *)

Lemma control_unfold so c :
  control so c =
  match rc_fd c with
  | Some fd => (errors_Join [rc_err c; (control_body so fd).1], (control_body so fd).2)
  | None => (errors_Join [rc_err c; None], [])
  end.
Proof.
  unfold control. destruct (rc_fd c) as [fd|]; [|done].
  by destruct (control_body so fd).
Qed.

(** X1. [control] returns nil exactly when [c.Control] returned nil and,
    if it invoked the function, both options were set without error. *)
Theorem control_nil_iff so c :
  (control so c).1 = None ↔
  rc_err c = None ∧
  ∀ fd, rc_fd c = Some fd →
    so (mkSockCall fd SOL_SOCKET SO_REUSEADDR 1) = None ∧
    so (mkSockCall fd SOL_SOCKET SO_REUSEPORT 1) = None.
Proof.
  rewrite control_unfold. destruct (rc_fd c) as [fd|]; simpl.
  - rewrite errors_Join_None. unfold control_body. split.
    + intros H. split; [apply H; left|]. intros fd' [= <-].
      destruct (so (mkSockCall fd SOL_SOCKET SO_REUSEADDR 1)) as [e|] eqn:E; simpl in H.
      * assert (Some e = None) as Hn by (apply H; right; left). done.
      * split; [done|]. apply H. right; left.
    + intros [Hc Hso] o. destruct (Hso fd eq_refl) as [-> ->]. simpl.
      intros [->|[->|[]%elem_of_nil]%elem_of_cons]%elem_of_cons; done.
  - rewrite errors_Join_None. split.
    + intros H. split; [apply H; left|done].
    + intros [Hc _] o.
      intros [->|[->|[]%elem_of_nil]%elem_of_cons]%elem_of_cons; done.
Qed.

(** X2. The calls of [unix.SetsockoptInt] that [control] makes: all on the
    descriptor [c.Control] passed, at level [SOL_SOCKET] with value 1; the
    first sets [SO_REUSEADDR]; [SO_REUSEPORT] is set only after
    [SO_REUSEADDR] was set without error; no option is set twice; and
    nothing is set when [c.Control] does not invoke the function. *)
Theorem control_calls so c call :
  call ∈ (control so c).2 →
  rc_fd c = Some (sc_fd call) ∧ sc_level call = SOL_SOCKET ∧ sc_value call = 1 ∧
  head (control so c).2 = Some (mkSockCall (sc_fd call) SOL_SOCKET SO_REUSEADDR 1) ∧
  (sc_opt call = SO_REUSEPORT →
   so (mkSockCall (sc_fd call) SOL_SOCKET SO_REUSEADDR 1) = None) ∧
  NoDup (control so c).2.
Proof.
  rewrite control_unfold. destruct (rc_fd c) as [fd|]; simpl;
    [|by intros ?%elem_of_nil].
  unfold control_body.
  destruct (so (mkSockCall fd SOL_SOCKET SO_REUSEADDR 1)) as [e|] eqn:E; simpl.
  - intros ->%list_elem_of_singleton. simpl. repeat split; try done.
    apply NoDup_singleton.
  - intros [->|[->|[]%elem_of_nil]%elem_of_cons]%elem_of_cons; simpl;
      repeat split; try done;
      (apply NoDup_cons; split;
       [by intros ?%list_elem_of_singleton|apply NoDup_singleton]).
Qed.

Lemma control_calls_witness :
  mkSockCall 3 SOL_SOCKET SO_REUSEPORT 1 ∈ (control demo_setsockopt demo_rawconn).2 ∧
  demo_setsockopt (mkSockCall 3 SOL_SOCKET SO_REUSEADDR 1) = None.
Proof.
  assert (mkSockCall 3 SOL_SOCKET SO_REUSEPORT 1
            ∈ (control demo_setsockopt demo_rawconn).2) as Hin.
  { vm_compute. right. left. }
  split; [exact Hin|].
  by apply (control_calls demo_setsockopt demo_rawconn _ Hin).
Defined.

(** X3. The error of [control] keeps what went wrong: [errors.Is] finds in
    it the error [c.Control] returned and the error of the
    [unix.SetsockoptInt] call that failed. *)
Theorem control_error_Is so c e :
  rc_err c = Some e ∨
  (∃ fd, rc_fd c = Some fd ∧
     (so (mkSockCall fd SOL_SOCKET SO_REUSEADDR 1) = Some e ∨
      (so (mkSockCall fd SOL_SOCKET SO_REUSEADDR 1) = None ∧
       so (mkSockCall fd SOL_SOCKET SO_REUSEPORT 1) = Some e))) →
  ∃ r, (control so c).1 = Some r ∧ errors_Is r e = true.
Proof.
  intros H. rewrite control_unfold.
  destruct H as [Hc|(fd & Hfd & Hso)].
  - destruct (rc_fd c); simpl; apply errors_Join_Is; rewrite Hc; left.
  - rewrite Hfd. simpl. apply errors_Join_Is. right.
    unfold control_body. destruct Hso as [->|[-> ->]]; simpl; left.
Qed.

Lemma control_error_Is_witness :
  ∃ r, (control demo_setsockopt demo_rawconn).1 = Some r ∧
       errors_Is r (Errno 92) = true.
Proof.
  apply (control_error_Is demo_setsockopt demo_rawconn (Errno 92)).
  right. exists 3. split; [reflexivity|]. right. split; reflexivity.
Defined.

(** ** [Listen] *)

Lemma Listen_bound_eq lc addrs lns :
  addrs ≠ [] → bound_by lc 0 addrs lns →
  Listen lc addrs =
  (Some (mkState lns false false (replicate (length lns) TAccept) [] ∅
           (((λ a, EvBind a true) <$> addrs) ++ (EvSpawn <$> seq 0 (length lns)))),
   None,
   ((λ a, EvBind a true) <$> addrs) ++ (EvSpawn <$> seq 0 (length lns))).
Proof.
  intros Hne Hb. unfold Listen. destruct addrs as [|a addrs]; [done|].
  pose proof (listen_loop_bound lc (a :: addrs) [] lns new_Listener Hb) as H.
  rewrite app_nil_r in H. rewrite H. done.
Qed.

Lemma Listen_fail_eq lc pre bad post lns lerr :
  bound_by lc 0 pre lns → lc (length pre) bad = inl lerr →
  Listen lc (pre ++ bad :: post) =
  (None, errors_Join [Some lerr; first_error lns],
   ((λ a, EvBind a true) <$> pre) ++ EvBind bad false :: close_seq 0 lns).
Proof.
  intros Hb Hbad. unfold Listen. destruct (pre ++ bad :: post) as [|a l] eqn:E.
  { by destruct pre. }
  rewrite <- E. clear E.
  rewrite (listen_loop_bound lc pre (bad :: post) lns new_Listener Hb).
  rewrite (listen_loop_fail _ _ _ _ lerr); [|simpl; by rewrite (proj1 Hb)].
  rewrite Close_first by done. simpl.
  unfold close_seq, teardown_seq. by rewrite <- !app_assoc.
Qed.

(** The addresses all bind, or there is a first one that does not. *)
Lemma bind_all_or_first_failure lc addrs : ∀ off,
  (∃ lns, bound_by lc off addrs lns) ∨
  (∃ pre bad post lns lerr,
     addrs = pre ++ bad :: post ∧ bound_by lc off pre lns ∧
     lc (off + length pre) bad = inl lerr).
Proof.
  induction addrs as [|a addrs IH]; intros off.
  - left. exists []. split; [done|]. by intros i b ?.
  - destruct (lc off a) as [lerr|ln] eqn:E.
    + right. exists [], a, addrs, [], lerr. split; [done|]. split.
      * split; [done|]. by intros i b ?.
      * simpl. by rewrite Nat.add_0_r.
    + assert (∀ pre lns, bound_by lc (S off) pre lns →
                         bound_by lc off (a :: pre) (ln :: lns)) as Hcons.
      { intros pre lns [Hlen Hb]. split; [simpl; lia|].
        intros [|i] b Hi; simpl in *.
        - simplify_eq. exists ln. by rewrite Nat.add_0_r.
        - destruct (Hb i b Hi) as (ln' & ? & Hlc). exists ln'. split; [done|].
          rewrite <- Hlc. f_equal. lia. }
      destruct (IH (S off)) as [(lns & Hb)|(pre & bad & post & lns & lerr & -> & Hb & Hbad)].
      * left. exists (ln :: lns). by apply Hcons.
      * right. exists (a :: pre), bad, post, (ln :: lns), lerr.
        split; [done|]. split; [by apply Hcons|].
        rewrite <- Hbad. simpl. f_equal. lia.
Qed.

(** X4. When every address binds, [Listen] returns no error and a
    listener that holds the sub-listeners in the order of the addresses,
    with nothing closed and nobody blocked; it has bound the addresses in
    order and then started one goroutine for each sub-listener, each
    about to call [ln.Accept()]. *)
Theorem Listen_success lc addrs lns :
  addrs ≠ [] → bound_by lc 0 addrs lns →
  ∃ l, Listen lc addrs = (Some l, None, trace l) ∧
    listeners l = lns ∧ closed l = false ∧ closeCh l = false ∧
    tasks l = replicate (length addrs) TAccept ∧
    recvq l = [] ∧ closers l = ∅ ∧
    trace l = ((λ a, EvBind a true) <$> addrs) ++ (EvSpawn <$> seq 0 (length addrs)).
Proof.
  intros Hne Hb. rewrite (Listen_bound_eq lc addrs lns Hne Hb).
  exists (mkState lns false false (replicate (length lns) TAccept) [] ∅
            (((λ a, EvBind a true) <$> addrs) ++ (EvSpawn <$> seq 0 (length lns)))).
  split; [reflexivity|]. simpl. by rewrite (proj1 Hb).
Qed.

Lemma Listen_success_witness :
  ∃ l, Listen demo_lc demo_addrs = (Some l, None, trace l) ∧
    listeners l = listeners demo_listener ∧ closed l = false ∧ closeCh l = false ∧
    tasks l = replicate (length demo_addrs) TAccept ∧
    recvq l = [] ∧ closers l = ∅ ∧
    trace l = ((λ a, EvBind a true) <$> demo_addrs) ++
              (EvSpawn <$> seq 0 (length demo_addrs)).
Proof.
  apply (Listen_success demo_lc demo_addrs (listeners demo_listener)).
  - discriminate.
  - exact demo_bound.
Defined.

(** X5. [Listen] returns a listener or an error, never both and never
    neither.  It returns a listener exactly when there is at least one
    address and every address binds.  With no address it returns the error
    of the empty input.  Otherwise it stops at the first address that does
    not bind: the addresses after it are not bound, the sub-listeners
    bound before it are each closed, and the error joins the bind error
    with the first close error. *)
Theorem Listen_outcome lc addrs :
  (∃ l lns, addrs ≠ [] ∧ bound_by lc 0 addrs lns ∧ listeners l = lns ∧
            Listen lc addrs = (Some l, None, trace l)) ∨
  (addrs = [] ∧
   Listen lc addrs = (None, Some (errorString "no addresses to listen on"), [])) ∨
  (∃ pre bad post lns lerr r,
     addrs = pre ++ bad :: post ∧ bound_by lc 0 pre lns ∧
     lc (length pre) bad = inl lerr ∧
     errors_Join [Some lerr; first_error lns] = Some r ∧
     Listen lc addrs =
       (None, Some r,
        ((λ a, EvBind a true) <$> pre) ++ EvBind bad false :: close_seq 0 lns)).
Proof.
  destruct addrs as [|a addrs]; [right; left; by split|].
  destruct (bind_all_or_first_failure lc (a :: addrs) 0)
    as [(lns & Hb)|(pre & bad & post & lns & lerr & Heq & Hb & Hbad)].
  - left. rewrite (Listen_bound_eq lc (a :: addrs) lns) by done.
    exists (mkState lns false false (replicate (length lns) TAccept) [] ∅
            (((λ a, EvBind a true) <$> (a :: addrs)) ++ (EvSpawn <$> seq 0 (length lns)))), lns.
    split; [done|]. split; [done|]. split; [|reflexivity]. done.
  - right; right. simpl in Hbad.
    exists pre, bad, post, lns, lerr,
      (joinError (lerr :: option_list (first_error lns))).
    split; [done|]. split; [done|]. split; [done|].
    assert (errors_Join [Some lerr; first_error lns] =
            Some (joinError (lerr :: option_list (first_error lns)))) as HJ.
    { by destruct (first_error lns). }
    split; [done|]. rewrite Heq, <- HJ. by apply Listen_fail_eq.
Qed.

(** X6. In the error of a [Listen] that stopped at an address that does
    not bind, [errors.Is] finds the bind error, and the first close error
    when closing a sub-listener failed. *)
Theorem Listen_error_Is lc pre bad post lns lerr :
  bound_by lc 0 pre lns → lc (length pre) bad = inl lerr →
  ∃ r, (Listen lc (pre ++ bad :: post)).1.2 = Some r ∧
       errors_Is r lerr = true ∧
       ∀ e, first_error lns = Some e → errors_Is r e = true.
Proof.
  intros Hb Hbad. rewrite (Listen_fail_eq _ _ _ _ _ _ Hb Hbad). simpl.
  destruct (errors_Join_Is [Some lerr; first_error lns] lerr) as (r & Hr & His);
    [left|].
  exists r. split; [done|]. split; [done|]. intros e He.
  destruct (errors_Join_Is [Some lerr; first_error lns] e) as (r' & Hr' & His');
    [rewrite He; right; left|].
  by simplify_eq.
Qed.

Lemma Listen_error_Is_witness :
  ∃ r, (Listen demo_lc (demo_addrs ++ "invalid address" :: [])).1.2 = Some r ∧
       errors_Is r (OpError "listen" (errorString "missing port in address")) = true ∧
       ∀ e, first_error (listeners demo_listener) = Some e → errors_Is r e = true.
Proof.
  apply (Listen_error_Is demo_lc demo_addrs "invalid address" []
           (listeners demo_listener)).
  - exact demo_bound.
  - reflexivity.
Defined.

(** ** Hand-offs *)

Lemma existsb_is_parked_false (ts : list TaskPC) i pc :
  existsb is_parked ts = false → ts !! i = Some pc → is_parked pc = false.
Proof.
  revert i. induction ts as [|t ts IH]; intros i H Hl; [done|].
  simpl in H. apply orb_false_iff in H as [H1 H2].
  destruct i as [|i]; simpl in Hl; [by simplify_eq|by eapply IH].
Qed.

Lemma rendezvous_inv s : reachable s → rendezvous s.
Proof.
  induction 1 as [s Hf|s l s' Hr IH Hs] using reachable_ind.
  - destruct Hf as (_ & _ & _ & _ & Hq & _). split; rewrite Hq; [constructor|done].
  - destruct IH as [Hnd Hp]. unfold rendezvous.
    step_inv Hs; simpl; (split; [try done|]);
      try (intros Hq j pc' [[-> ->]|[? ?]]%lookup_insert_task;
           [done|by eapply Hp]);
      try done.
    + by apply NoDup_filter.
    + intros Hq j pc' [[-> ->]|[? ?]]%lookup_insert_task; [done|].
      eapply Hp; [|done]. intros Hnil. rewrite Hnil in Hq. done.
    + apply NoDup_app. split; [done|]. split; [|apply NoDup_singleton].
      intros x Hx ->%list_elem_of_singleton.
      match goal with H : bool_decide _ = false |- _ =>
        by apply bool_decide_eq_false_1 in H end.
    + intros _ j pc' Hj.
      match goal with H : _ || _ = false |- _ =>
        apply orb_false_iff in H as [_ H] end.
      by eapply existsb_is_parked_false.
    + constructor.
Qed.

(** X7. In every state of a listener that [Listen] returned, a caller
    blocked in [Accept] and a goroutine blocked in its select never
    coexist: a pair never waits while a caller waits.  Either of them is
    blocked only while [l.closeCh] is open, and no caller is blocked
    twice. *)
Theorem no_missed_handoff lc addrs s :
  running lc addrs s →
  (∀ k i p, k ∈ recvq s → tasks s !! i = Some (TParked p) → False) ∧
  (∀ k, k ∈ recvq s → closeCh s = false) ∧
  (∀ i p, tasks s !! i = Some (TParked p) → closeCh s = false) ∧
  NoDup (recvq s).
Proof.
  intros Hr%running_reachable.
  destruct (rendezvous_inv s Hr) as [Hnd Hp].
  pose proof (none_parked_inv s Hr) as Hn. unfold none_parked in Hn.
  split; [|split; [|split]]; [| | |done].
  - intros k i p Hk Ht. eapply Hp in Ht; [done|].
    intros Hnil. rewrite Hnil in Hk. by apply elem_of_nil in Hk.
  - intros k Hk. destruct (closeCh s); [|done].
    destruct (Hn eq_refl) as [Hq _]. rewrite Hq in Hk. by apply elem_of_nil in Hk.
  - intros i p Ht. destruct (closeCh s); [|done].
    destruct (Hn eq_refl) as [_ Hq]. by apply Hq in Ht.
Qed.

Lemma no_missed_handoff_witness :
  running demo_lc demo_addrs (demo_after [LAccept 3 SelPark; LAccept 4 SelPark]) ∧
  NoDup (recvq (demo_after [LAccept 3 SelPark; LAccept 4 SelPark])).
Proof.
  assert (running demo_lc demo_addrs
            (demo_after [LAccept 3 SelPark; LAccept 4 SelPark]))
    as Hrun by (apply demo_running; vm_compute; by eexists).
  split; [exact Hrun|].
  apply (no_missed_handoff demo_lc demo_addrs _ Hrun).
Defined.

Lemma omap_cons_eq {A B} (f : A → option B) x l :
  omap f (x :: l) = match f x with Some y => y :: omap f l | None => omap f l end.
Proof. done. Qed.

Lemma omap_task_events {B} (f : Event → option B) i tr :
  (∀ ev, of_task i ev = false → f ev = None) →
  omap f (task_events i tr) = omap f tr.
Proof.
  intros Hf. induction tr as [|ev tr IH]; [done|].
  unfold task_events in *. cbn [List.filter].
  destruct (of_task i ev) eqn:E; rewrite !omap_cons_eq, IH; [done|].
  by rewrite (Hf ev E).
Qed.

Lemma accepted_conns_task_events i tr :
  accepted_conns i (task_events i tr) = accepted_conns i tr.
Proof.
  apply omap_task_events. intros [] H; simpl in *; try done.
  destruct r; [|done]. by rewrite H.
Qed.

Lemma delivered_conns_task_events i tr :
  delivered_conns i (task_events i tr) = delivered_conns i tr.
Proof.
  apply omap_task_events. intros [] H; simpl in *; try done. by rewrite H.
Qed.

Lemma rounds_conns i h :
  rounds i h → delivered_conns i h = accepted_conns i h.
Proof.
  induction 1 as [|h c k _ IH]; [done|].
  unfold delivered_conns, accepted_conns in *. rewrite !omap_app, IH. simpl.
  by rewrite bool_decide_eq_true_2.
Qed.

Lemma conns_of_history i h0 tl :
  rounds i h0 →
  delivered_conns i (h0 ++ tl) = accepted_conns i h0 ++ delivered_conns i tl ∧
  accepted_conns i (h0 ++ tl) = accepted_conns i h0 ++ accepted_conns i tl.
Proof.
  intros Hh. unfold delivered_conns, accepted_conns. rewrite !omap_app.
  split; [|done]. f_equal. by apply rounds_conns.
Qed.

(** The connections of one sub-listener reach the callers of [Accept] in
    the order the sub-listener accepted them, and all but perhaps the
    last accepted one have. *)
Lemma delivered_in_order s i :
  reachable s →
  delivered_conns i (trace s) `prefix_of` accepted_conns i (trace s) ∧
  length (accepted_conns i (trace s)) ≤ S (length (delivered_conns i (trace s))).
Proof.
  intros Hr. pose proof (task_hist_inv s i Hr) as H.
  rewrite <- (delivered_conns_task_events i), <- (accepted_conns_task_events i).
  assert (∀ h0 tl, rounds i h0 →
            delivered_conns i tl `prefix_of` accepted_conns i tl →
            length (accepted_conns i tl) ≤ S (length (delivered_conns i tl)) →
            delivered_conns i (h0 ++ tl) `prefix_of` accepted_conns i (h0 ++ tl) ∧
            length (accepted_conns i (h0 ++ tl)) ≤
              S (length (delivered_conns i (h0 ++ tl)))) as Htl.
  { intros h0 tl Hh Hpre Hlen.
    destruct (conns_of_history i h0 tl Hh) as [-> ->].
    split; [by apply prefix_app|]. rewrite !length_app. lia. }
  destruct (tasks s !! i) as [[]|]; simpl in H.
  - rewrite (rounds_conns _ _ H). split; [done|lia].
  - destruct H as (h0 & r & Hh & -> & ->). apply Htl; [done|..];
      destruct r; simpl; rewrite ?bool_decide_eq_true_2 by done; simpl;
      try apply prefix_nil; lia.
  - destruct H as (h0 & r & Hh & -> & ->). apply Htl; [done|..];
      destruct r; simpl; rewrite ?bool_decide_eq_true_2 by done; simpl;
      try apply prefix_nil; lia.
  - destruct H as (h0 & r & k & Hh & -> & ->). apply Htl; [done|..];
      destruct r; simpl; rewrite ?bool_decide_eq_true_2 by done; simpl;
      try done; lia.
  - destruct H as (_ & h0 & r & Hh & -> & ->). apply Htl; [done|..];
      destruct r; simpl; rewrite ?bool_decide_eq_true_2 by done; simpl;
      try apply prefix_nil; lia.
  - destruct H as (h0 & Hh & [(e & k & ->)|[(_ & c & ->)|(_ & e & ->)]]);
      (apply Htl; [done|..]); simpl;
      rewrite ?bool_decide_eq_true_2 by done; simpl;
      try apply prefix_nil; try done; lia.
  - rewrite H. split; [done|]. simpl. lia.
Qed.

(** X8. In every state of a listener that [Listen] returned, the
    connections of one sub-listener that callers of [Accept] have got are,
    in order, the connections that sub-listener accepted, except perhaps
    the last accepted one: hand-offs keep the order of each sub-listener
    and skip no connection. *)
Theorem handoff_keeps_order lc addrs s i :
  running lc addrs s →
  delivered_conns i (trace s) `prefix_of` accepted_conns i (trace s) ∧
  length (accepted_conns i (trace s)) ≤ S (length (delivered_conns i (trace s))).
Proof. intros Hr%running_reachable. by apply delivered_in_order. Qed.

Lemma handoff_keeps_order_witness :
  running demo_lc demo_addrs (demo_after run_two_accepts) ∧
  delivered_conns 0 (trace (demo_after run_two_accepts))
    `prefix_of` accepted_conns 0 (trace (demo_after run_two_accepts)).
Proof.
  assert (running demo_lc demo_addrs (demo_after run_two_accepts))
    as Hrun by (apply demo_running; vm_compute; by eexists).
  split; [exact Hrun|].
  apply (handoff_keeps_order demo_lc demo_addrs _ 0 Hrun).
Defined.

(** X9. In every state of a listener that [Listen] returned, what a call
    of [Accept] returned is a connection with a nil error, and then a
    connection that a sub-listener accepted, or no connection with an
    error: never both and never neither. *)
Theorem Accept_returns_conn_or_error lc addrs s ev k p :
  running lc addrs s →
  ev ∈ trace s → accept_result ev = Some (k, p) →
  (∃ i c, ev = EvDeliver i k p ∧ p = {| conn := Some c; err := None |} ∧
          EvBinderAccept i (AcceptConn c) ∈ trace s) ∨
  (∃ e, p = {| conn := None; err := Some e |}).
Proof.
  intros Hr%running_reachable Hin Hres. destruct ev; simplify_eq/=.
  - destruct (deliver_provenance _ _ _ _ Hr Hin) as (r & -> & Hacc).
    destruct r as [c|e]; [left|right]; simpl.
    + by exists i, c.
    + by exists e.
  - right. by eexists.
Qed.

Lemma Accept_returns_conn_or_error_witness :
  running demo_lc demo_addrs (demo_after run_two_accepts) ∧
  ((∃ i c, EvDeliver 0 5 (pair_of (AcceptConn 7)) =
             EvDeliver i 5 (pair_of (AcceptConn 7)) ∧
           pair_of (AcceptConn 7) = {| conn := Some c; err := None |} ∧
           EvBinderAccept i (AcceptConn c) ∈ trace (demo_after run_two_accepts)) ∨
   (∃ e, pair_of (AcceptConn 7) = {| conn := None; err := Some e |})).
Proof.
  assert (running demo_lc demo_addrs (demo_after run_two_accepts))
    as Hrun by (apply demo_running; vm_compute; by eexists).
  split; [exact Hrun|].
  apply (Accept_returns_conn_or_error demo_lc demo_addrs _
           (EvDeliver 0 5 (pair_of (AcceptConn 7))) 5 _ Hrun); [|reflexivity].
  vm_compute. do 5 right. left.
Defined.

(** ** Goroutines *)

Lemma step_spawn s l s' :
  step s l = Some s' →
  List.filter is_spawn (trace s') = List.filter is_spawn (trace s).
Proof.
  intros H. step_inv H; simpl; rewrite ?List.filter_app; simpl;
    rewrite ?filter_AcceptClosed by done; by rewrite ?app_nil_r.
Qed.

Lemma run_spawn s ls s' :
  run s ls = Some s' →
  List.filter is_spawn (trace s') = List.filter is_spawn (trace s) ∧
  length (tasks s') = length (tasks s).
Proof.
  revert s. induction ls as [|l ls IH]; intros s H; simpl in H; [by simplify_eq|].
  destruct (step s l) as [s1|] eqn:E; [|done].
  destruct (IH _ H) as [-> ->].
  by rewrite (step_spawn _ _ _ E), (step_tasks_length _ _ _ E).
Qed.

Lemma filter_spawn_binds (addrs : list string) :
  List.filter is_spawn ((λ a, EvBind a true) <$> addrs) = [].
Proof. induction addrs as [|a addrs IH]; [done|]. apply IH. Qed.

Lemma filter_spawn_spawns (l : list nat) :
  List.filter is_spawn (EvSpawn <$> l) = EvSpawn <$> l.
Proof.
  induction l as [|a l IH]; [done|].
  change (EvSpawn a :: List.filter is_spawn (EvSpawn <$> l) = EvSpawn a :: (EvSpawn <$> l)).
  by rewrite IH.
Qed.

(** X10. A listener that [Listen] returned has, in every state it
    reaches, one goroutine for each sub-listener and one sub-listener for
    each address; the goroutines were started by [Listen], in the order
    of the sub-listeners, and none is started later. *)
Theorem one_goroutine_per_sublistener lc addrs s :
  running lc addrs s →
  length (tasks s) = length (listeners s) ∧
  length (listeners s) = length addrs ∧
  List.filter is_spawn (trace s) = EvSpawn <$> seq 0 (length addrs).
Proof.
  intros (s0 & log & ls & HL & Hr).
  destruct (Listen_Some _ _ _ _ _ HL) as (lns & [Hlen Hb] & Hne & _ & _ & ->).
  destruct (run_spawn _ _ _ Hr) as [-> ->].
  rewrite (run_listeners _ _ _ Hr). simpl.
  rewrite length_replicate. split; [done|]. split; [done|].
  rewrite !List.filter_app, filter_spawn_binds, filter_spawn_spawns.
  by rewrite Hlen.
Qed.

Lemma one_goroutine_per_sublistener_witness :
  running demo_lc demo_addrs (demo_after run_two_accepts) ∧
  length (tasks (demo_after run_two_accepts)) =
    length (listeners (demo_after run_two_accepts)).
Proof.
  assert (running demo_lc demo_addrs (demo_after run_two_accepts))
    as Hrun by (apply demo_running; vm_compute; by eexists).
  split; [exact Hrun|].
  apply (one_goroutine_per_sublistener demo_lc demo_addrs _ Hrun).
Defined.

(** X11. Once [l.closeCh] is closed, a goroutine whose [ln.Accept()]
    returns, with a connection or with an error, hands nothing off: its
    select can only take the closeCh case; it closes the connection, if
    there is one, and returns, without a step of any other goroutine. *)
Theorem goroutine_exits_after_shutdown lc addrs s i r :
  running lc addrs s →
  closeCh s = true → tasks s !! i = Some TAccept →
  (∀ s1 ch s2, step s (LBinderAccept i r) = Some s1 →
               step s1 (LTaskSelect i ch) = Some s2 → ch = SelClosed) ∧
  ∃ s', run s (task_exit_from_accept i r) = Some s' ∧
        tasks s' !! i = Some TDone ∧
        (∀ j, j ≠ i → tasks s' !! j = tasks s !! j) ∧
        trace s' = trace s ++ EvBinderAccept i r ::
                     match r with
                     | AcceptConn c => [EvConnClose i c]
                     | AcceptFail _ => []
                     end.
Proof.
  intros Hr%running_reachable Hc Ht. split.
  - intros s1 ch s2 Hs1 Hs2.
    eapply (select_after_shutdown s1); [by eapply reachable_step| |done].
    by eapply step_closeCh.
  - pose proof (lookup_lt_Some _ _ _ Ht) as Hlt.
    unfold task_exit_from_accept. simpl. rewrite Ht. simpl.
    rewrite list_lookup_insert_eq by done. rewrite Hc. simpl.
    rewrite list_lookup_insert_eq by (by rewrite length_insert).
    destruct r as [c|e]; simpl; eexists; (split; [done|]); simpl;
      rewrite !list_insert_insert_eq;
      (split; [by rewrite list_lookup_insert_eq|]);
      (split; [intros j Hj; by rewrite list_lookup_insert_ne|]).
    + by rewrite <- app_assoc.
    + done.
Qed.

Lemma goroutine_exits_after_shutdown_witness :
  running demo_lc demo_addrs (demo_after run_closed_twice) ∧
  ∃ s', run (demo_after run_closed_twice)
          (task_exit_from_accept 1 (AcceptFail (OpError "accept" ErrClosed))) =
        Some s' ∧
        tasks s' !! 1 = Some TDone ∧
        (∀ j, j ≠ 1 → tasks s' !! j = tasks (demo_after run_closed_twice) !! j) ∧
        trace s' = trace (demo_after run_closed_twice) ++
                   [EvBinderAccept 1 (AcceptFail (OpError "accept" ErrClosed))].
Proof.
  assert (running demo_lc demo_addrs (demo_after run_closed_twice))
    as Hrun by (apply demo_running; vm_compute; by eexists).
  split; [exact Hrun|].
  apply (goroutine_exits_after_shutdown demo_lc demo_addrs _ 1
           (AcceptFail (OpError "accept" ErrClosed)) Hrun); reflexivity.
Defined.

(** X12. While [l.closeCh] is open, a sub-listener whose goroutine is in
    [ln.Accept()] serves, whatever the other goroutines do or have done:
    the connection it accepts can be handed to the caller blocked first in
    [Accept], or, when none is blocked, to the next caller; the caller
    gets the connection with a nil error, and the goroutine is back in
    [ln.Accept()]. *)
Theorem open_listener_serves s i k c :
  closeCh s = false → tasks s !! i = Some TAccept →
  head (recvq s) = Some k ∨ recvq s = [] →
  ∃ s', run s (serve_labels (bool_decide (recvq s ≠ [])) i k c) = Some s' ∧
        trace s' = trace s ++ [EvBinderAccept i (AcceptConn c);
                               EvDeliver i k {| conn := Some c; err := None |}] ∧
        tasks s' = tasks s ∧ closeCh s' = false ∧ closed s' = closed s ∧
        recvq s' = filter (λ x, x ≠ k) (recvq s).
Proof.
  intros Hc Ht Hk. pose proof (lookup_lt_Some _ _ _ Ht) as Hlt.
  destruct (recvq s) as [|k' q] eqn:Hq.
  - rewrite bool_decide_eq_false_2 by (by intros ?). simpl.
    rewrite Ht. simpl. rewrite list_lookup_insert_eq by done.
    rewrite Hc, Hq. simpl. rewrite Hq. simpl.
    rewrite list_lookup_insert_eq by (by rewrite length_insert). simpl.
    rewrite list_lookup_insert_eq by (by rewrite !length_insert). simpl.
    eexists. split; [done|]. simpl.
    rewrite !list_insert_insert_eq, (list_insert_id _ _ _ Ht), <- app_assoc.
    done.
  - destruct Hk as [Hk|?]; [|done]. simpl in Hk. injection Hk as ->.
    rewrite bool_decide_eq_true_2 by done. simpl.
    rewrite Ht. simpl. rewrite list_lookup_insert_eq by done.
    rewrite Hq. rewrite bool_decide_eq_true_2 by left. simpl.
    rewrite list_lookup_insert_eq by (by rewrite length_insert). simpl.
    eexists. split; [done|]. simpl.
    rewrite !list_insert_insert_eq, (list_insert_id _ _ _ Ht), <- app_assoc.
    done.
Qed.

Lemma open_listener_serves_witness :
  tasks (demo_after run_first_failed) = [TDone; TAccept] ∧
  ∃ s', run (demo_after run_first_failed)
          (serve_labels (bool_decide (recvq (demo_after run_first_failed) ≠ []))
             1 9 11) = Some s' ∧
        trace s' = trace (demo_after run_first_failed) ++
                   [EvBinderAccept 1 (AcceptConn 11);
                    EvDeliver 1 9 {| conn := Some 11; err := None |}] ∧
        tasks s' = tasks (demo_after run_first_failed) ∧
        closeCh s' = false ∧ closed s' = closed (demo_after run_first_failed) ∧
        recvq s' = filter (λ x, x ≠ 9) (recvq (demo_after run_first_failed)).
Proof.
  split; [vm_compute; reflexivity|].
  apply (open_listener_serves (demo_after run_first_failed) 1 9 11).
  - vm_compute. reflexivity.
  - vm_compute. reflexivity.
  - right. vm_compute. reflexivity.
Defined.

(** ** The shutdown signal *)

Lemma shutdown_count s :
  reachable s → count is_shutdown (trace s) = if closeCh s then 1 else 0.
Proof.
  induction 1 as [s Hf|s l s' Hr IH Hs] using reachable_ind.
  - destruct Hf as (_ & -> & _ & _ & _ & _ & Hf).
    apply count_construction; [|done]. by intros [].
  - step_inv Hs; simpl; rewrite ?count_app; simpl; rewrite ?IH; try lia.
    match goal with H : closeCh s = false |- _ => rewrite H end.
    rewrite count_AcceptClosed by done. lia.
Qed.

(** X13. In every state of a listener that [Listen] returned,
    [l.closeCh] has been closed once when it is closed and never when it
    is open; it is closed only after [l.closed] was set; and once closed
    it stays closed. *)
Theorem shutdown_once lc addrs s :
  running lc addrs s →
  count is_shutdown (trace s) = (if closeCh s then 1 else 0) ∧
  (closeCh s = true → closed s = true) ∧
  (closeCh s = true → ∀ ls s', run s ls = Some s' → closeCh s' = true).
Proof.
  intros Hr%running_reachable. split; [by apply shutdown_count|]. split.
  - intros Hc.
    destruct (teardown_phase_inv s Hr) as
      [(Hcl & Hch & _)|[(t0 & Hcl & Hch & _)|
        [(t0 & j0 & Hcl & _)|(t0 & Hcl & _)]]]; congruence.
  - intros Hc ls s' Hrun. by eapply run_closeCh.
Qed.

Lemma shutdown_once_witness :
  running demo_lc demo_addrs (demo_after run_closed_twice) ∧
  count is_shutdown (trace (demo_after run_closed_twice)) =
    (if closeCh (demo_after run_closed_twice) then 1 else 0).
Proof.
  assert (running demo_lc demo_addrs (demo_after run_closed_twice))
    as Hrun by (apply demo_running; vm_compute; by eexists).
  split; [exact Hrun|].
  apply (shutdown_once demo_lc demo_addrs _ Hrun).
Defined.

(** ** Callers of [Accept] *)

(** X14. A caller blocked in [Accept] stays blocked through every action
    except the one that gives it its result: when an action takes a
    caller out of the blocked ones, that action records a return of
    [Accept] for this caller, a pair handed off by a goroutine or
    [(nil, net.ErrClosed)]. *)
Theorem blocked_caller_leaves_with_result s l s' k :
  step s l = Some s' → k ∈ recvq s → k ∉ recvq s' →
  ∃ evs ev p, trace s' = trace s ++ evs ∧ ev ∈ evs ∧
              accept_result ev = Some (k, p).
Proof.
  intros Hs Hin Hout. step_inv Hs; simpl in *; try done.
  - destruct (decide (k = k0)) as [->|Hne].
    + eexists _, _, _. split; [done|]. split; [left|]. done.
    + exfalso. apply Hout. apply list_elem_of_filter. by split.
  - exfalso. apply Hout. apply elem_of_app. by left.
  - eexists _, (EvAcceptClosed k), _. split; [done|]. split; [|done].
    right. apply list_elem_of_fmap. by exists k.
Qed.

Lemma blocked_caller_leaves_with_result_witness :
  ∃ evs ev p,
    trace (demo_after run_blocked_then_closed) =
      trace (demo_after [LAccept 3 SelPark; LCloseCAS 0]) ++ evs ∧
    ev ∈ evs ∧ accept_result ev = Some (3, p).
Proof.
  apply (blocked_caller_leaves_with_result
           (demo_after [LAccept 3 SelPark; LCloseCAS 0]) (LCloseCh 0)).
  - vm_compute. reflexivity.
  - vm_compute. left.
  - vm_compute. apply not_elem_of_nil.
Defined.
